(** * PySPH integrator steps ([pysph/sph/integrator_step.py])

    A shallow embedding of the per-particle integrator kernels.  Every
    [IntegratorStep] method is a straight-line sequence of subscripted
    assignments [d_p[d_idx] = e] and [d_p[d_idx] += e] on named property
    arrays; the embedding keeps that shape: a particle array is a finite
    map from property names to lists of numbers, an expression reads the
    store and may fail, a statement transforms the store and may fail. *)

From Stdlib Require Import ZArith QArith Qcanon Lia.
From Stdlib Require Import Floats.SpecFloat.
From stdpp Require Import base option list strings gmap fin_maps.

Local Open Scope string_scope.

(** ** Arithmetic

    The kernels use [+], [*], one division ([1./3.], [2./3.]) and a few
    literals, all of which are dyadic ([0], [1.], [2.], [3.], [0.5],
    [0.25], [0.75]).  They are written once against this interface and
    read either exactly (rationals) or as IEEE-754 binary64 (Python
    floats). *)

Class Number (F : Type) := {
  add : F → F → F;
  mul : F → F → F;
  div : F → F → F;
  (** [lit m e] is the literal whose value is [m * 2^e]. *)
  lit : Z → Z → F
}.

Declare Scope num_scope.
Delimit Scope num_scope with num.
Infix "+" := add : num_scope.
Infix "*" := mul : num_scope.
Infix "/" := div : num_scope.

Section Literals.
Context {F : Type} `{Number F}.
Definition f0    : F := lit 0 0.       (* 0, 0.0 *)
Definition f1    : F := lit 1 0.       (* 1., 1.0 *)
Definition f2    : F := lit 2 0.       (* 2. *)
Definition f3    : F := lit 3 0.       (* 3. *)
Definition f0_5  : F := lit 1 (-1).    (* 0.5 *)
Definition f0_25 : F := lit 1 (-2).    (* 0.25 *)
Definition f0_75 : F := lit 3 (-2).    (* 0.75 *)
End Literals.

(** Exact arithmetic: canonical rationals. *)
Module Exact.
Definition pow2 (e : Z) : Qc :=
  match e with
  | Z0 => Q2Qc 1
  | Zpos p => Q2Qc (inject_Z (Z.pow_pos 2 p))
  | Zneg p => Q2Qc (1 # Pos.pow 2 p)
  end.
#[export] Instance Qc_number : Number Qc := {|
  add := Qcplus;
  mul := Qcmult;
  div := Qcdiv;
  lit m e := Qcmult (Q2Qc (inject_Z m)) (pow2 e)
|}.
End Exact.

(** IEEE-754 binary64, round to nearest even: the arithmetic of a Python
    [float] and of a NumPy [float64] array element. *)
Module Binary64.
Definition prec : Z := 53.
Definition emax : Z := 1024.
Definition float := spec_float.
#[export] Instance b64_number : Number float := {|
  add := SFadd prec emax;
  mul := SFmul prec emax;
  div := SFdiv prec emax;
  lit m e := binary_normalize prec emax m e false
|}.
Definition nan : float := S754_nan.
Definition inf : float := S754_infinity false.
(** A double written as [m * 2^e], rounded if needed. *)
Definition b64 (m e : Z) : float := lit m e.

Definition is_zero (x : float) : bool :=
  match x with S754_zero _ => true | _ => false end.
(** Neither an infinity nor a NaN. *)
Definition is_finite (x : float) : bool :=
  match x with S754_zero _ | S754_finite _ _ _ => true | _ => false end.
(** The same double, or two zeros whatever their signs: what Python's
    [==] sees on non-NaN values. *)
Definition numerically_equal (x y : float) : Prop :=
  x = y ∨ (is_zero x ∧ is_zero y).
End Binary64.

(** What a step of size zero needs of the arithmetic: a zero factor
    annihilates a finite one, and adding a zero changes nothing, up to
    a relation [same] that [+] and [*] respect. *)
Class ZeroLaws (F : Type) `{Number F} := {
  finite : F → Prop;
  same : F → F → Prop;
  same_equiv :: Equivalence same;
  add_same :: Proper (same ==> same ==> same) add;
  mul_same :: Proper (same ==> same ==> same) mul;
  finite_same :: Proper (same ==> iff) finite;
  finite_half : finite f0_5;
  mul_zero_l z a : same z f0 → finite a → same (mul z a) f0;
  mul_zero_r a z : finite a → same z f0 → same (mul a z) f0;
  add_zero_r x z : same z f0 → same (add x z) x
}.

(** The convex blends of TVD-RK3 give back the common value. *)
Class BlendLaws (F : Type) `{ZeroLaws F} := {
  blend_stage2 x : same (add (mul f0_75 x) (mul f0_25 x)) x;
  blend_stage3 x : same (add (mul (div f1 f3) x) (mul (div f2 f3) x)) x
}.

(** ** The particle array and its accessors *)

Section Kernel.
Context {F : Type} `{Number F}.

(** Property name to property array ([ParticleArray.properties]). *)
Abbreviation Store := (gmap string (list F)).

(** An expression reads the store; [None] is a raised exception
    (unknown property, index out of range). *)
Definition Expr : Type := Store → option F.
(** A statement updates the store or raises. *)
Definition Stmt : Type := Store → option Store.

(** [d_p[d_idx]] on the right of an assignment. *)
Definition load (p : string) (i : nat) : Expr :=
  λ s, a ← s !! p; a !! i.

Definition const (c : F) : Expr := λ _, Some c.

(** Operands are evaluated left to right. *)
Definition eadd (e1 e2 : Expr) : Expr :=
  λ s, x ← e1 s; y ← e2 s; Some (add x y).
Definition emul (e1 e2 : Expr) : Expr :=
  λ s, x ← e1 s; y ← e2 s; Some (mul x y).

(** [d_p[d_idx] = v] for an evaluated [v]: in place, never resizing. *)
Definition store (p : string) (i : nat) (v : F) : Stmt :=
  λ s, a ← s !! p;
       if decide (i < length a) then Some (<[p := <[i := v]> a]> s)
       else None.

(** [d_p[d_idx] = e]: the right-hand side is evaluated first. *)
Definition assign (p : string) (i : nat) (e : Expr) : Stmt :=
  λ s, v ← e s; store p i v s.

(** [d_p[d_idx] += e]: the target is read, then [e], then the sum is
    written back. *)
Definition iadd (p : string) (i : nat) (e : Expr) : Stmt :=
  assign p i (eadd (load p i) e).

(** [pass] and sequencing. *)
Definition skip : Stmt := Some.
Definition seq (c1 c2 : Stmt) : Stmt := λ s, c1 s ≫= c2.
End Kernel.

Declare Scope kernel_scope.
Delimit Scope kernel_scope with K.
Declare Scope target_scope.
Delimit Scope target_scope with tgt.
Declare Scope augtarget_scope.
Delimit Scope augtarget_scope with aug.
(** [p.[i]] is a load inside an expression, and the target of [::=]
    (Python [=]) or of [+::=] (Python [+=]) on the left of a statement. *)
Notation "p .[ i ]" := (load p i)
  (at level 1, left associativity, format "p .[ i ]") : kernel_scope.
Notation "p .[ i ]" := (assign p i) (only parsing) : target_scope.
Notation "p .[ i ]" := (iadd p i) (only parsing) : augtarget_scope.
Notation "$ c" := (const c) (at level 1, c at level 0, format "$ c") : kernel_scope.
Infix "+" := eadd : kernel_scope.
Infix "*" := emul : kernel_scope.
Notation "t ::= e" := (t%tgt e%K)
  (at level 70, no associativity, only parsing) : kernel_scope.
Notation "t +::= e" := (t%aug e%K)
  (at level 70, no associativity, only parsing) : kernel_scope.
Notation "c1 ;; c2" := (seq c1%K c2%K)
  (at level 100, c2 at level 200, right associativity) : kernel_scope.

(** The property names the kernels take as [d_*] arguments. *)
Abbreviation d_x := "x" (only parsing).
Abbreviation d_y := "y" (only parsing).
Abbreviation d_z := "z" (only parsing).
Abbreviation d_u := "u" (only parsing).
Abbreviation d_v := "v" (only parsing).
Abbreviation d_w := "w" (only parsing).
Abbreviation d_rho := "rho" (only parsing).
Abbreviation d_x0 := "x0" (only parsing).
Abbreviation d_y0 := "y0" (only parsing).
Abbreviation d_z0 := "z0" (only parsing).
Abbreviation d_u0 := "u0" (only parsing).
Abbreviation d_v0 := "v0" (only parsing).
Abbreviation d_w0 := "w0" (only parsing).
Abbreviation d_rho0 := "rho0" (only parsing).
Abbreviation d_au := "au" (only parsing).
Abbreviation d_av := "av" (only parsing).
Abbreviation d_aw := "aw" (only parsing).
Abbreviation d_ax := "ax" (only parsing).
Abbreviation d_ay := "ay" (only parsing).
Abbreviation d_az := "az" (only parsing).
Abbreviation d_arho := "arho" (only parsing).
Abbreviation d_e := "e" (only parsing).
Abbreviation d_e0 := "e0" (only parsing).
Abbreviation d_ae := "ae" (only parsing).
Abbreviation d_s00 := "s00" (only parsing).
Abbreviation d_s01 := "s01" (only parsing).
Abbreviation d_s02 := "s02" (only parsing).
Abbreviation d_s11 := "s11" (only parsing).
Abbreviation d_s12 := "s12" (only parsing).
Abbreviation d_s22 := "s22" (only parsing).
Abbreviation d_s000 := "s000" (only parsing).
Abbreviation d_s010 := "s010" (only parsing).
Abbreviation d_s020 := "s020" (only parsing).
Abbreviation d_s110 := "s110" (only parsing).
Abbreviation d_s120 := "s120" (only parsing).
Abbreviation d_s220 := "s220" (only parsing).
Abbreviation d_as00 := "as00" (only parsing).
Abbreviation d_as01 := "as01" (only parsing).
Abbreviation d_as02 := "as02" (only parsing).
Abbreviation d_as11 := "as11" (only parsing).
Abbreviation d_as12 := "as12" (only parsing).
Abbreviation d_as22 := "as22" (only parsing).
Abbreviation d_uhat := "uhat" (only parsing).
Abbreviation d_vhat := "vhat" (only parsing).
Abbreviation d_auhat := "auhat" (only parsing).
Abbreviation d_avhat := "avhat" (only parsing).
Abbreviation d_vmag2 := "vmag2" (only parsing).
Abbreviation d_h := "h" (only parsing).
Abbreviation d_h0 := "h0" (only parsing).
Abbreviation d_converged := "converged" (only parsing).
Abbreviation d_omega := "omega" (only parsing).

(** ** The integrator steps

    One definition per method, statement for statement; a local such as
    [dtb2 = 0.5*dt] is a [let] evaluated once. *)

Section Schemes.
Context {F : Type} `{Number F}.
Local Open Scope kernel_scope.

(** [IntegratorStep.initialize], lines 14-15. *)
Definition IntegratorStep_initialize : Stmt (F:=F) := skip.

(** [IntegratorStep.stage1], lines 16-17. *)
Definition IntegratorStep_stage1 : Stmt (F:=F) := skip.

(** [IntegratorStep.stage2], lines 18-19. *)
Definition IntegratorStep_stage2 : Stmt (F:=F) := skip.

(** [EulerStep.initialize], lines 27-28. *)
Definition EulerStep_initialize : Stmt (F:=F) := skip.

(** [EulerStep.stage1], lines 29-39. *)
Definition EulerStep_stage1 (d_idx : nat) (dt : F) : Stmt (F:=F) :=
  d_u.[d_idx] +::= $dt * d_au.[d_idx] ;;
  d_v.[d_idx] +::= $dt * d_av.[d_idx] ;;
  d_w.[d_idx] +::= $dt * d_aw.[d_idx] ;;
  d_x.[d_idx] +::= $dt * d_u.[d_idx] ;;
  d_y.[d_idx] +::= $dt * d_v.[d_idx] ;;
  d_z.[d_idx] +::= $dt * d_w.[d_idx] ;;
  d_rho.[d_idx] +::= $dt * d_arho.[d_idx].

(** [WCSPHStep.initialize], lines 57-67. *)
Definition WCSPHStep_initialize (d_idx : nat) : Stmt (F:=F) :=
  d_x0.[d_idx] ::= d_x.[d_idx] ;;
  d_y0.[d_idx] ::= d_y.[d_idx] ;;
  d_z0.[d_idx] ::= d_z.[d_idx] ;;
  d_u0.[d_idx] ::= d_u.[d_idx] ;;
  d_v0.[d_idx] ::= d_v.[d_idx] ;;
  d_w0.[d_idx] ::= d_w.[d_idx] ;;
  d_rho0.[d_idx] ::= d_rho.[d_idx].

(** [WCSPHStep.stage1], lines 69-82. *)
Definition WCSPHStep_stage1 (d_idx : nat) (dt : F) : Stmt (F:=F) :=
  let dtb2 := (f0_5 * dt)%num in
  d_u.[d_idx] ::= d_u0.[d_idx] + $dtb2 * d_au.[d_idx] ;;
  d_v.[d_idx] ::= d_v0.[d_idx] + $dtb2 * d_av.[d_idx] ;;
  d_w.[d_idx] ::= d_w0.[d_idx] + $dtb2 * d_aw.[d_idx] ;;
  d_x.[d_idx] ::= d_x0.[d_idx] + $dtb2 * d_ax.[d_idx] ;;
  d_y.[d_idx] ::= d_y0.[d_idx] + $dtb2 * d_ay.[d_idx] ;;
  d_z.[d_idx] ::= d_z0.[d_idx] + $dtb2 * d_az.[d_idx] ;;
  d_rho.[d_idx] ::= d_rho0.[d_idx] + $dtb2 * d_arho.[d_idx].

(** [WCSPHStep.stage2], lines 84-97. *)
Definition WCSPHStep_stage2 (d_idx : nat) (dt : F) : Stmt (F:=F) :=
  d_u.[d_idx] ::= d_u0.[d_idx] + $dt * d_au.[d_idx] ;;
  d_v.[d_idx] ::= d_v0.[d_idx] + $dt * d_av.[d_idx] ;;
  d_w.[d_idx] ::= d_w0.[d_idx] + $dt * d_aw.[d_idx] ;;
  d_x.[d_idx] ::= d_x0.[d_idx] + $dt * d_ax.[d_idx] ;;
  d_y.[d_idx] ::= d_y0.[d_idx] + $dt * d_ay.[d_idx] ;;
  d_z.[d_idx] ::= d_z0.[d_idx] + $dt * d_az.[d_idx] ;;
  d_rho.[d_idx] ::= d_rho0.[d_idx] + $dt * d_arho.[d_idx].

(** [WCSPHTVDRK3Step.initialize], lines 109-119. *)
Definition WCSPHTVDRK3Step_initialize (d_idx : nat) : Stmt (F:=F) :=
  d_x0.[d_idx] ::= d_x.[d_idx] ;;
  d_y0.[d_idx] ::= d_y.[d_idx] ;;
  d_z0.[d_idx] ::= d_z.[d_idx] ;;
  d_u0.[d_idx] ::= d_u.[d_idx] ;;
  d_v0.[d_idx] ::= d_v.[d_idx] ;;
  d_w0.[d_idx] ::= d_w.[d_idx] ;;
  d_rho0.[d_idx] ::= d_rho.[d_idx].

(** [WCSPHTVDRK3Step.stage1], lines 121-137. *)
Definition WCSPHTVDRK3Step_stage1 (d_idx : nat) (dt : F) : Stmt (F:=F) :=
  d_u.[d_idx] ::= d_u0.[d_idx] + $dt * d_au.[d_idx] ;;
  d_v.[d_idx] ::= d_v0.[d_idx] + $dt * d_av.[d_idx] ;;
  d_w.[d_idx] ::= d_w0.[d_idx] + $dt * d_aw.[d_idx] ;;
  d_x.[d_idx] ::= d_x0.[d_idx] + $dt * d_ax.[d_idx] ;;
  d_y.[d_idx] ::= d_y0.[d_idx] + $dt * d_ay.[d_idx] ;;
  d_z.[d_idx] ::= d_z0.[d_idx] + $dt * d_az.[d_idx] ;;
  d_rho.[d_idx] ::= d_rho0.[d_idx] + $dt * d_arho.[d_idx].

(** [WCSPHTVDRK3Step.stage2], lines 139-154. *)
Definition WCSPHTVDRK3Step_stage2 (d_idx : nat) (dt : F) : Stmt (F:=F) :=
  d_u.[d_idx] ::= $f0_75 * d_u0.[d_idx] + $f0_25 * (d_u.[d_idx] + $dt * d_au.[d_idx]) ;;
  d_v.[d_idx] ::= $f0_75 * d_v0.[d_idx] + $f0_25 * (d_v.[d_idx] + $dt * d_av.[d_idx]) ;;
  d_w.[d_idx] ::= $f0_75 * d_w0.[d_idx] + $f0_25 * (d_w.[d_idx] + $dt * d_aw.[d_idx]) ;;
  d_x.[d_idx] ::= $f0_75 * d_x0.[d_idx] + $f0_25 * (d_x.[d_idx] + $dt * d_ax.[d_idx]) ;;
  d_y.[d_idx] ::= $f0_75 * d_y0.[d_idx] + $f0_25 * (d_y.[d_idx] + $dt * d_ay.[d_idx]) ;;
  d_z.[d_idx] ::= $f0_75 * d_z0.[d_idx] + $f0_25 * (d_z.[d_idx] + $dt * d_az.[d_idx]) ;;
  d_rho.[d_idx] ::= $f0_75 * d_rho0.[d_idx] + $f0_25 * (d_rho.[d_idx] + $dt * d_arho.[d_idx]).

(** [WCSPHTVDRK3Step.stage3], lines 156-174. *)
Definition WCSPHTVDRK3Step_stage3 (d_idx : nat) (dt : F) : Stmt (F:=F) :=
  let oneby3 := (f1 / f3)%num in
  let twoby3 := (f2 / f3)%num in
  d_u.[d_idx] ::= $oneby3 * d_u0.[d_idx] + $twoby3 * (d_u.[d_idx] + $dt * d_au.[d_idx]) ;;
  d_v.[d_idx] ::= $oneby3 * d_v0.[d_idx] + $twoby3 * (d_v.[d_idx] + $dt * d_av.[d_idx]) ;;
  d_w.[d_idx] ::= $oneby3 * d_w0.[d_idx] + $twoby3 * (d_w.[d_idx] + $dt * d_aw.[d_idx]) ;;
  d_x.[d_idx] ::= $oneby3 * d_x0.[d_idx] + $twoby3 * (d_x.[d_idx] + $dt * d_ax.[d_idx]) ;;
  d_y.[d_idx] ::= $oneby3 * d_y0.[d_idx] + $twoby3 * (d_y.[d_idx] + $dt * d_ay.[d_idx]) ;;
  d_z.[d_idx] ::= $oneby3 * d_z0.[d_idx] + $twoby3 * (d_z.[d_idx] + $dt * d_az.[d_idx]) ;;
  d_rho.[d_idx] ::= $oneby3 * d_rho0.[d_idx] + $twoby3 * (d_rho.[d_idx] + $dt * d_arho.[d_idx]).

(** [SolidMechStep.initialize], lines 181-202. *)
Definition SolidMechStep_initialize (d_idx : nat) : Stmt (F:=F) :=
  d_x0.[d_idx] ::= d_x.[d_idx] ;;
  d_y0.[d_idx] ::= d_y.[d_idx] ;;
  d_z0.[d_idx] ::= d_z.[d_idx] ;;
  d_u0.[d_idx] ::= d_u.[d_idx] ;;
  d_v0.[d_idx] ::= d_v.[d_idx] ;;
  d_w0.[d_idx] ::= d_w.[d_idx] ;;
  d_rho0.[d_idx] ::= d_rho.[d_idx] ;;
  d_e0.[d_idx] ::= d_e.[d_idx] ;;
  d_s000.[d_idx] ::= d_s00.[d_idx] ;;
  d_s010.[d_idx] ::= d_s01.[d_idx] ;;
  d_s020.[d_idx] ::= d_s02.[d_idx] ;;
  d_s110.[d_idx] ::= d_s11.[d_idx] ;;
  d_s120.[d_idx] ::= d_s12.[d_idx] ;;
  d_s220.[d_idx] ::= d_s22.[d_idx].

(** [SolidMechStep.stage1], lines 204-230. *)
Definition SolidMechStep_stage1 (d_idx : nat) (dt : F) : Stmt (F:=F) :=
  let dtb2 := (f0_5 * dt)%num in
  d_u.[d_idx] ::= d_u0.[d_idx] + $dtb2 * d_au.[d_idx] ;;
  d_v.[d_idx] ::= d_v0.[d_idx] + $dtb2 * d_av.[d_idx] ;;
  d_w.[d_idx] ::= d_w0.[d_idx] + $dtb2 * d_aw.[d_idx] ;;
  d_x.[d_idx] ::= d_x0.[d_idx] + $dtb2 * d_ax.[d_idx] ;;
  d_y.[d_idx] ::= d_y0.[d_idx] + $dtb2 * d_ay.[d_idx] ;;
  d_z.[d_idx] ::= d_z0.[d_idx] + $dtb2 * d_az.[d_idx] ;;
  d_rho.[d_idx] ::= d_rho0.[d_idx] + $dtb2 * d_arho.[d_idx] ;;
  d_e.[d_idx] ::= d_e0.[d_idx] + $dtb2 * d_ae.[d_idx] ;;
  d_s00.[d_idx] ::= d_s000.[d_idx] + $dtb2 * d_as00.[d_idx] ;;
  d_s01.[d_idx] ::= d_s010.[d_idx] + $dtb2 * d_as01.[d_idx] ;;
  d_s02.[d_idx] ::= d_s020.[d_idx] + $dtb2 * d_as02.[d_idx] ;;
  d_s11.[d_idx] ::= d_s110.[d_idx] + $dtb2 * d_as11.[d_idx] ;;
  d_s12.[d_idx] ::= d_s120.[d_idx] + $dtb2 * d_as12.[d_idx] ;;
  d_s22.[d_idx] ::= d_s220.[d_idx] + $dtb2 * d_as22.[d_idx].

(** [SolidMechStep.stage2], lines 232-258. *)
Definition SolidMechStep_stage2 (d_idx : nat) (dt : F) : Stmt (F:=F) :=
  d_u.[d_idx] ::= d_u0.[d_idx] + $dt * d_au.[d_idx] ;;
  d_v.[d_idx] ::= d_v0.[d_idx] + $dt * d_av.[d_idx] ;;
  d_w.[d_idx] ::= d_w0.[d_idx] + $dt * d_aw.[d_idx] ;;
  d_x.[d_idx] ::= d_x0.[d_idx] + $dt * d_ax.[d_idx] ;;
  d_y.[d_idx] ::= d_y0.[d_idx] + $dt * d_ay.[d_idx] ;;
  d_z.[d_idx] ::= d_z0.[d_idx] + $dt * d_az.[d_idx] ;;
  d_rho.[d_idx] ::= d_rho0.[d_idx] + $dt * d_arho.[d_idx] ;;
  d_e.[d_idx] ::= d_e0.[d_idx] + $dt * d_ae.[d_idx] ;;
  d_s00.[d_idx] ::= d_s000.[d_idx] + $dt * d_as00.[d_idx] ;;
  d_s01.[d_idx] ::= d_s010.[d_idx] + $dt * d_as01.[d_idx] ;;
  d_s02.[d_idx] ::= d_s020.[d_idx] + $dt * d_as02.[d_idx] ;;
  d_s11.[d_idx] ::= d_s110.[d_idx] + $dt * d_as11.[d_idx] ;;
  d_s12.[d_idx] ::= d_s120.[d_idx] + $dt * d_as12.[d_idx] ;;
  d_s22.[d_idx] ::= d_s220.[d_idx] + $dt * d_as22.[d_idx].

(** [TransportVelocityStep.initialize], lines 271-272. *)
Definition TransportVelocityStep_initialize : Stmt (F:=F) := skip.

(** [TransportVelocityStep.stage1], lines 274-288. *)
Definition TransportVelocityStep_stage1 (d_idx : nat) (dt : F) : Stmt (F:=F) :=
  let dtb2 := (f0_5 * dt)%num in
  d_u.[d_idx] +::= $dtb2 * d_au.[d_idx] ;;
  d_v.[d_idx] +::= $dtb2 * d_av.[d_idx] ;;
  d_uhat.[d_idx] ::= d_u.[d_idx] + $dtb2 * d_auhat.[d_idx] ;;
  d_vhat.[d_idx] ::= d_v.[d_idx] + $dtb2 * d_avhat.[d_idx] ;;
  d_x.[d_idx] +::= $dt * d_uhat.[d_idx] ;;
  d_y.[d_idx] +::= $dt * d_vhat.[d_idx].

(** [TransportVelocityStep.stage2], lines 290-298. *)
Definition TransportVelocityStep_stage2 (d_idx : nat) (dt : F) : Stmt (F:=F) :=
  let dtb2 := (f0_5 * dt)%num in
  d_u.[d_idx] +::= $dtb2 * d_au.[d_idx] ;;
  d_v.[d_idx] +::= $dtb2 * d_av.[d_idx] ;;
  d_vmag2.[d_idx] ::= d_u.[d_idx] * d_u.[d_idx] + d_v.[d_idx] * d_v.[d_idx].

(** [AdamiVerletStep.initialize], lines 312-313. *)
Definition AdamiVerletStep_initialize : Stmt (F:=F) := skip.

(** [AdamiVerletStep.stage1], lines 315-324. *)
Definition AdamiVerletStep_stage1 (d_idx : nat) (dt : F) : Stmt (F:=F) :=
  let dtb2 := (f0_5 * dt)%num in
  d_u.[d_idx] +::= $dtb2 * d_au.[d_idx] ;;
  d_v.[d_idx] +::= $dtb2 * d_av.[d_idx] ;;
  d_x.[d_idx] +::= $dtb2 * d_u.[d_idx] ;;
  d_y.[d_idx] +::= $dtb2 * d_v.[d_idx].

(** [AdamiVerletStep.stage2], lines 326-342. *)
Definition AdamiVerletStep_stage2 (d_idx : nat) (dt : F) : Stmt (F:=F) :=
  let dtb2 := (f0_5 * dt)%num in
  d_u.[d_idx] +::= $dtb2 * d_au.[d_idx] ;;
  d_v.[d_idx] +::= $dtb2 * d_av.[d_idx] ;;
  d_x.[d_idx] +::= $dtb2 * d_u.[d_idx] ;;
  d_y.[d_idx] +::= $dtb2 * d_v.[d_idx] ;;
  d_rho.[d_idx] +::= $dt * d_arho.[d_idx] ;;
  d_vmag2.[d_idx] ::= d_u.[d_idx] * d_u.[d_idx] + d_v.[d_idx] * d_v.[d_idx].

(** [GasDFluidStep.initialize], lines 349-369. *)
Definition GasDFluidStep_initialize (d_idx : nat) : Stmt (F:=F) :=
  d_x0.[d_idx] ::= d_x.[d_idx] ;;
  d_y0.[d_idx] ::= d_y.[d_idx] ;;
  d_z0.[d_idx] ::= d_z.[d_idx] ;;
  d_u0.[d_idx] ::= d_u.[d_idx] ;;
  d_v0.[d_idx] ::= d_v.[d_idx] ;;
  d_w0.[d_idx] ::= d_w.[d_idx] ;;
  d_e0.[d_idx] ::= d_e.[d_idx] ;;
  d_h0.[d_idx] ::= d_h.[d_idx] ;;
  d_converged.[d_idx] ::= $f0 ;;
  d_omega.[d_idx] ::= $f1.

(** [GasDFluidStep.stage1], lines 371-385. *)
Definition GasDFluidStep_stage1 (d_idx : nat) (dt : F) : Stmt (F:=F) :=
  let dtb2 := (f0_5 * dt)%num in
  d_u.[d_idx] ::= d_u0.[d_idx] + $dtb2 * d_au.[d_idx] ;;
  d_v.[d_idx] ::= d_v0.[d_idx] + $dtb2 * d_av.[d_idx] ;;
  d_w.[d_idx] ::= d_w0.[d_idx] + $dtb2 * d_aw.[d_idx] ;;
  d_x.[d_idx] ::= d_x0.[d_idx] + $dtb2 * d_u.[d_idx] ;;
  d_y.[d_idx] ::= d_y0.[d_idx] + $dtb2 * d_v.[d_idx] ;;
  d_z.[d_idx] ::= d_z0.[d_idx] + $dtb2 * d_w.[d_idx] ;;
  d_e.[d_idx] ::= d_e0.[d_idx] + $dtb2 * d_ae.[d_idx].

(** [GasDFluidStep.stage2], lines 387-400. *)
Definition GasDFluidStep_stage2 (d_idx : nat) (dt : F) : Stmt (F:=F) :=
  d_u.[d_idx] ::= d_u0.[d_idx] + $dt * d_au.[d_idx] ;;
  d_v.[d_idx] ::= d_v0.[d_idx] + $dt * d_av.[d_idx] ;;
  d_w.[d_idx] ::= d_w0.[d_idx] + $dt * d_aw.[d_idx] ;;
  d_x.[d_idx] ::= d_x0.[d_idx] + $dt * d_u.[d_idx] ;;
  d_y.[d_idx] ::= d_y0.[d_idx] + $dt * d_v.[d_idx] ;;
  d_z.[d_idx] ::= d_z0.[d_idx] + $dt * d_w.[d_idx] ;;
  d_e.[d_idx] ::= d_e0.[d_idx] + $dt * d_ae.[d_idx].

(** [TwoStageRigidBodyStep.initialize], lines 416-425. *)
Definition TwoStageRigidBodyStep_initialize (d_idx : nat) : Stmt (F:=F) :=
  d_u0.[d_idx] ::= d_u.[d_idx] ;;
  d_v0.[d_idx] ::= d_v.[d_idx] ;;
  d_w0.[d_idx] ::= d_w.[d_idx] ;;
  d_x0.[d_idx] ::= d_x.[d_idx] ;;
  d_y0.[d_idx] ::= d_y.[d_idx] ;;
  d_z0.[d_idx] ::= d_z.[d_idx].

(** [TwoStageRigidBodyStep.stage1], lines 427-440. *)
Definition TwoStageRigidBodyStep_stage1 (d_idx : nat) (dt : F) : Stmt (F:=F) :=
  let dtb2 := (f0_5 * dt)%num in
  d_u.[d_idx] ::= d_u0.[d_idx] + $dtb2 * d_ax.[d_idx] ;;
  d_v.[d_idx] ::= d_v0.[d_idx] + $dtb2 * d_ay.[d_idx] ;;
  d_w.[d_idx] ::= d_w0.[d_idx] + $dtb2 * d_az.[d_idx] ;;
  d_x.[d_idx] ::= d_x0.[d_idx] + $dtb2 * $f0_5 * (d_u.[d_idx] + d_u0.[d_idx]) ;;
  d_y.[d_idx] ::= d_y0.[d_idx] + $dtb2 * $f0_5 * (d_v.[d_idx] + d_v0.[d_idx]) ;;
  d_z.[d_idx] ::= d_z0.[d_idx] + $dtb2 * $f0_5 * (d_w.[d_idx] + d_w0.[d_idx]).

(** [TwoStageRigidBodyStep.stage2], lines 442-453. *)
Definition TwoStageRigidBodyStep_stage2 (d_idx : nat) (dt : F) : Stmt (F:=F) :=
  d_u.[d_idx] ::= d_u0.[d_idx] + $dt * d_ax.[d_idx] ;;
  d_v.[d_idx] ::= d_v0.[d_idx] + $dt * d_ay.[d_idx] ;;
  d_w.[d_idx] ::= d_w0.[d_idx] + $dt * d_az.[d_idx] ;;
  d_x.[d_idx] ::= d_x0.[d_idx] + $dt * $f0_5 * (d_u.[d_idx] + d_u0.[d_idx]) ;;
  d_y.[d_idx] ::= d_y0.[d_idx] + $dt * $f0_5 * (d_v.[d_idx] + d_v0.[d_idx]) ;;
  d_z.[d_idx] ::= d_z0.[d_idx] + $dt * $f0_5 * (d_w.[d_idx] + d_w0.[d_idx]).

(** [OneStageRigidBodyStep.initialize], lines 460-469. *)
Definition OneStageRigidBodyStep_initialize (d_idx : nat) : Stmt (F:=F) :=
  d_u0.[d_idx] ::= d_u.[d_idx] ;;
  d_v0.[d_idx] ::= d_v.[d_idx] ;;
  d_w0.[d_idx] ::= d_w.[d_idx] ;;
  d_x0.[d_idx] ::= d_x.[d_idx] ;;
  d_y0.[d_idx] ::= d_y.[d_idx] ;;
  d_z0.[d_idx] ::= d_z.[d_idx].

(** [OneStageRigidBodyStep.stage1], lines 471-474. *)
Definition OneStageRigidBodyStep_stage1 (d_idx : nat) (dt : F) : Stmt (F:=F) := skip.

(** [OneStageRigidBodyStep.stage2], lines 476-488. *)
Definition OneStageRigidBodyStep_stage2 (d_idx : nat) (dt : F) : Stmt (F:=F) :=
  d_u.[d_idx] +::= $dt * d_ax.[d_idx] ;;
  d_v.[d_idx] +::= $dt * d_ay.[d_idx] ;;
  d_w.[d_idx] +::= $dt * d_az.[d_idx] ;;
  d_x.[d_idx] +::= $dt * $f0_5 * (d_u.[d_idx] + d_u0.[d_idx]) ;;
  d_y.[d_idx] +::= $dt * $f0_5 * (d_v.[d_idx] + d_v0.[d_idx]) ;;
  d_z.[d_idx] +::= $dt * $f0_5 * (d_w.[d_idx] + d_w0.[d_idx]).

(** [VerletSymplecticWCSPHStep.stage1], lines 513-520. *)
Definition VerletSymplecticWCSPHStep_stage1 (d_idx : nat) (dt : F) : Stmt (F:=F) :=
  let dtb2 := (f0_5 * dt)%num in
  d_x.[d_idx] +::= $dtb2 * d_u.[d_idx] ;;
  d_y.[d_idx] +::= $dtb2 * d_v.[d_idx] ;;
  d_z.[d_idx] +::= $dtb2 * d_w.[d_idx].

(** [VerletSymplecticWCSPHStep.stage2], lines 522-535. *)
Definition VerletSymplecticWCSPHStep_stage2 (d_idx : nat) (dt : F) : Stmt (F:=F) :=
  let dtb2 := (f0_5 * dt)%num in
  d_u.[d_idx] +::= $dt * d_au.[d_idx] ;;
  d_v.[d_idx] +::= $dt * d_av.[d_idx] ;;
  d_w.[d_idx] +::= $dt * d_aw.[d_idx] ;;
  d_x.[d_idx] +::= $dtb2 * d_ax.[d_idx] ;;
  d_y.[d_idx] +::= $dtb2 * d_ay.[d_idx] ;;
  d_z.[d_idx] +::= $dtb2 * d_az.[d_idx].

(** [VerletSymplecticWCSPHStep] defines no [initialize]: the inherited
    [IntegratorStep.initialize] runs. *)
Definition VerletSymplecticWCSPHStep_initialize : Stmt (F:=F) :=
  IntegratorStep_initialize.
End Schemes.

(** ** The stepping interface

    [IntegratorStep] is the base class: an [initialize] and a list of
    stages, each a per-particle kernel.  A stepper object holds no
    state of its own. *)

Record IntegratorStep (F : Type) `{Number F} := {
  initialize : nat → Stmt (F:=F);
  stages : list (nat → F → Stmt (F:=F))
}.
Arguments initialize {F _} _ _.
Arguments stages {F _} _.

Section Steppers.
Context {F : Type} `{Number F}.

Definition EulerStep : IntegratorStep F :=
  {| initialize := λ _, EulerStep_initialize;
     stages := [EulerStep_stage1] |}.
Definition WCSPHStep : IntegratorStep F :=
  {| initialize := WCSPHStep_initialize;
     stages := [WCSPHStep_stage1; WCSPHStep_stage2] |}.
Definition WCSPHTVDRK3Step : IntegratorStep F :=
  {| initialize := WCSPHTVDRK3Step_initialize;
     stages := [WCSPHTVDRK3Step_stage1; WCSPHTVDRK3Step_stage2;
                WCSPHTVDRK3Step_stage3] |}.
Definition SolidMechStep : IntegratorStep F :=
  {| initialize := SolidMechStep_initialize;
     stages := [SolidMechStep_stage1; SolidMechStep_stage2] |}.
Definition TransportVelocityStep : IntegratorStep F :=
  {| initialize := λ _, TransportVelocityStep_initialize;
     stages := [TransportVelocityStep_stage1; TransportVelocityStep_stage2] |}.
Definition AdamiVerletStep : IntegratorStep F :=
  {| initialize := λ _, AdamiVerletStep_initialize;
     stages := [AdamiVerletStep_stage1; AdamiVerletStep_stage2] |}.
Definition GasDFluidStep : IntegratorStep F :=
  {| initialize := GasDFluidStep_initialize;
     stages := [GasDFluidStep_stage1; GasDFluidStep_stage2] |}.
Definition TwoStageRigidBodyStep : IntegratorStep F :=
  {| initialize := TwoStageRigidBodyStep_initialize;
     stages := [TwoStageRigidBodyStep_stage1; TwoStageRigidBodyStep_stage2] |}.
Definition OneStageRigidBodyStep : IntegratorStep F :=
  {| initialize := OneStageRigidBodyStep_initialize;
     stages := [OneStageRigidBodyStep_stage1; OneStageRigidBodyStep_stage2] |}.
Definition VerletSymplecticWCSPHStep : IntegratorStep F :=
  {| initialize := λ _, VerletSymplecticWCSPHStep_initialize;
     stages := [VerletSymplecticWCSPHStep_stage1;
                VerletSymplecticWCSPHStep_stage2] |}.

(** The stages of a stepper in order, all with the same [dt], on one
    particle; the acceleration arrays are whatever the store holds. *)
Definition run_stages (st : list (nat → F → Stmt (F:=F)))
    (d_idx : nat) (dt : F) : Stmt :=
  foldr (λ stage k, seq (stage d_idx dt) k) skip st.

(** One timestep on one particle: [initialize], then every stage. *)
Definition timestep (step : IntegratorStep F) (d_idx : nat) (dt : F) : Stmt :=
  seq (initialize step d_idx) (run_stages (stages step) d_idx dt).
End Steppers.

(** ** Reasoning about one particle

    [agree s i env]: the association list [env] gives, for each property
    it names, the element at index [i] of that array in [s]. *)

Section Local.
Context {F : Type} `{Number F}.
Abbreviation Store := (gmap string (list F)).

Definition Env : Type := list (string * F).

Fixpoint env_get (p : string) (env : Env) : option F :=
  match env with
  | [] => None
  | (q, v) :: env' => if String.eqb p q then Some v else env_get p env'
  end.

Fixpoint env_set (p : string) (v : F) (env : Env) : Env :=
  match env with
  | [] => []
  | (q, w) :: env' =>
      (q, if String.eqb p q then v else w) :: env_set p v env'
  end.

Definition agree (s : Store) (i : nat) (env : Env) : Prop :=
  Forall (λ qv, load qv.1 i s = Some qv.2) env.

(** [c] run from [s] returns normally, in a store satisfying [Q]. *)
Definition wp (c : Stmt (F:=F)) (s : Store) (Q : Store → Prop) : Prop :=
  ∃ s', c s = Some s' ∧ Q s'.

(** The shape of a store: which properties exist, and how long. *)
Definition shape (s : Store) : gmap string nat := length <$> s.

(** A particle array with a single particle, holding [env]. *)
Definition one_particle (env : Env) : Store :=
  list_to_map ((λ qv, (qv.1, [qv.2])) <$> env).
End Local.

(** ** Footprints

    [reads i R e]: the expression [e] loads only elements at index [i],
    of properties satisfying [R].  [touches i R W c]: the statement [c]
    is built from assignments at index [i] to properties satisfying
    [W], whose right-hand sides read within [R]. *)

Section Footprint.
Context {F : Type} `{Number F}.

Inductive reads (i : nat) (R : string → Prop) : Expr (F:=F) → Prop :=
| reads_const c : reads i R (const c)
| reads_load p : R p → reads i R (load p i)
| reads_add e1 e2 : reads i R e1 → reads i R e2 → reads i R (eadd e1 e2)
| reads_mul e1 e2 : reads i R e1 → reads i R e2 → reads i R (emul e1 e2).

Inductive touches (i : nat) (R W : string → Prop) : Stmt (F:=F) → Prop :=
| touches_skip : touches i R W skip
| touches_seq c1 c2 :
    touches i R W c1 → touches i R W c2 → touches i R W (seq c1 c2)
| touches_assign p e : W p → reads i R e → touches i R W (assign p i e).

(** Two statements commute when either order gives the same outcome,
    a raised exception included. *)
Definition commute (c1 c2 : Stmt (F:=F)) : Prop :=
  ∀ s, seq c1 c2 s = seq c2 c1 s.
End Footprint.

(** ** The steppers and the properties they are bound to *)

(** Predictor properties: the [*0] copies taken by [initialize]. *)
Definition predictor_props : list string :=
  [d_x0; d_y0; d_z0; d_u0; d_v0; d_w0; d_rho0; d_e0; d_h0;
   d_s000; d_s010; d_s020; d_s110; d_s120; d_s220].

(** Rates supplied by the acceleration evaluator. *)
Definition acceleration_props : list string :=
  [d_au; d_av; d_aw; d_ax; d_ay; d_az; d_arho; d_ae;
   d_as00; d_as01; d_as02; d_as11; d_as12; d_as22; d_auhat; d_avhat].


(** The [d_*] arguments of each stepper's methods. *)
Definition Euler_args : list string :=
  [d_u; d_v; d_w; d_au; d_av; d_aw; d_x; d_y; d_z; d_rho; d_arho].
Definition WCSPH_args : list string :=
  [d_x0; d_y0; d_z0; d_x; d_y; d_z; d_u0; d_v0; d_w0; d_u; d_v; d_w;
   d_rho0; d_rho; d_au; d_av; d_aw; d_ax; d_ay; d_az; d_arho].
Definition SolidMech_args : list string :=
  WCSPH_args ++
  [d_e; d_e0; d_ae; d_s00; d_s01; d_s02; d_s11; d_s12; d_s22;
   d_s000; d_s010; d_s020; d_s110; d_s120; d_s220;
   d_as00; d_as01; d_as02; d_as11; d_as12; d_as22].
Definition TransportVelocity_args : list string :=
  [d_u; d_v; d_au; d_av; d_uhat; d_auhat; d_vhat; d_avhat; d_x; d_y; d_vmag2].
Definition AdamiVerlet_args : list string :=
  [d_u; d_v; d_au; d_av; d_x; d_y; d_rho; d_arho; d_vmag2].
Definition GasDFluid_args : list string :=
  [d_x0; d_y0; d_z0; d_x; d_y; d_z; d_h; d_u0; d_v0; d_w0; d_u; d_v; d_w;
   d_e; d_e0; d_h0; d_converged; d_omega; d_au; d_av; d_aw; d_ae].
Definition RigidBody_args : list string :=
  [d_x; d_y; d_z; d_x0; d_y0; d_z0; d_u; d_v; d_w; d_u0; d_v0; d_w0;
   d_ax; d_ay; d_az].
Definition VerletSymplecticWCSPH_args : list string :=
  [d_x; d_y; d_z; d_ax; d_ay; d_az; d_u; d_v; d_w; d_au; d_av; d_aw].

(** What each [initialize] copies: (predictor, current) pairs. *)
Definition WCSPH_copies : list (string * string) :=
  [(d_x0, d_x); (d_y0, d_y); (d_z0, d_z);
   (d_u0, d_u); (d_v0, d_v); (d_w0, d_w); (d_rho0, d_rho)].
Definition SolidMech_copies : list (string * string) :=
  WCSPH_copies ++
  [(d_e0, d_e); (d_s000, d_s00); (d_s010, d_s01); (d_s020, d_s02);
   (d_s110, d_s11); (d_s120, d_s12); (d_s220, d_s22)].
Definition GasDFluid_copies : list (string * string) :=
  [(d_x0, d_x); (d_y0, d_y); (d_z0, d_z);
   (d_u0, d_u); (d_v0, d_v); (d_w0, d_w); (d_e0, d_e); (d_h0, d_h)].
Definition RigidBody_copies : list (string * string) :=
  [(d_u0, d_u); (d_v0, d_v); (d_w0, d_w);
   (d_x0, d_x); (d_y0, d_y); (d_z0, d_z)].


Section Tables.
Context {F : Type} `{Number F}.

(** Every stepper of the file, with the properties it is bound to. *)
Definition steppers : list (IntegratorStep F * list string) :=
  [(EulerStep, Euler_args); (WCSPHStep, WCSPH_args);
   (WCSPHTVDRK3Step, WCSPH_args); (SolidMechStep, SolidMech_args);
   (TransportVelocityStep, TransportVelocity_args);
   (AdamiVerletStep, AdamiVerlet_args); (GasDFluidStep, GasDFluid_args);
   (TwoStageRigidBodyStep, RigidBody_args);
   (OneStageRigidBodyStep, RigidBody_args);
   (VerletSymplecticWCSPHStep, VerletSymplecticWCSPH_args)].

(** Every kernel of a stepper with one calling convention:
    [initialize] ignores [dt]. *)
Definition kernels (step : IntegratorStep F) : list (nat → F → Stmt (F:=F)) :=
  (λ d_idx _, initialize step d_idx) :: stages step.

(** The steppers whose [initialize] takes predictor copies, with the
    properties they are bound to and the copies taken. *)
Definition predictor_steppers :
    list (IntegratorStep F * list string * list (string * string)) :=
  [(WCSPHStep, WCSPH_args, WCSPH_copies);
   (WCSPHTVDRK3Step, WCSPH_args, WCSPH_copies);
   (SolidMechStep, SolidMech_args, SolidMech_copies);
   (GasDFluidStep, GasDFluid_args, GasDFluid_copies);
   (TwoStageRigidBodyStep, RigidBody_args, RigidBody_copies);
   (OneStageRigidBodyStep, RigidBody_args, RigidBody_copies)].



(** What may happen between [initialize] and the end of a timestep:
    any stage of the stepper is called on any particle with any [dt],
    or the evaluator overwrites an acceleration array. *)
Inductive progress (step : IntegratorStep F) :
    gmap string (list F) → gmap string (list F) → Prop :=
| progress_stage stage d_idx dt s s' :
    stage ∈ stages step → stage d_idx dt s = Some s' → progress step s s'
| progress_evaluate a arr s :
    a ∈ acceleration_props → progress step s (<[a := arr]> s).
End Tables.

(** ** What a kernel needs

    [consults i p e]: evaluating [e] loads [p] at index [i].
    [demands i p c]: running [c] loads or stores [p] at index [i], so
    that [c] raises unless that element exists. *)

Section Demands.
Context {F : Type} `{Number F}.

Inductive consults (i : nat) (p : string) : Expr (F:=F) → Prop :=
| consults_load : consults i p (load p i)
| consults_add_l e1 e2 : consults i p e1 → consults i p (eadd e1 e2)
| consults_add_r e1 e2 : consults i p e2 → consults i p (eadd e1 e2)
| consults_mul_l e1 e2 : consults i p e1 → consults i p (emul e1 e2)
| consults_mul_r e1 e2 : consults i p e2 → consults i p (emul e1 e2).

Inductive demands (i : nat) (p : string) : Stmt (F:=F) → Prop :=
| demands_target e : demands i p (assign p i e)
| demands_rhs q e : consults i p e → demands i p (assign q i e)
| demands_seq_l c1 c2 : demands i p c1 → demands i p (seq c1 c2)
| demands_seq_r c1 c2 :
    touches i (λ _, True) (λ _, True) c1 → demands i p c2 →
    demands i p (seq c1 c2).
End Demands.

(** The [d_*] arguments of the methods that take fewer than their
    stepper's. *)
Definition WCSPH_initialize_args : list string :=
  [d_x0; d_y0; d_z0; d_x; d_y; d_z; d_u0; d_v0; d_w0; d_u; d_v; d_w;
   d_rho0; d_rho].
Definition SolidMech_initialize_args : list string :=
  WCSPH_initialize_args ++
  [d_s00; d_s01; d_s02; d_s11; d_s12; d_s22;
   d_s000; d_s010; d_s020; d_s110; d_s120; d_s220; d_e0; d_e].
Definition GasDFluid_initialize_args : list string :=
  [d_x0; d_y0; d_z0; d_x; d_y; d_z; d_h; d_u0; d_v0; d_w0; d_u; d_v; d_w;
   d_e; d_e0; d_h0; d_converged; d_omega].
Definition GasDFluid_stage_args : list string :=
  [d_x0; d_y0; d_z0; d_x; d_y; d_z; d_u0; d_v0; d_w0; d_u; d_v; d_w;
   d_e0; d_e; d_au; d_av; d_aw; d_ae].
Definition RigidBody_initialize_args : list string :=
  [d_x; d_y; d_z; d_x0; d_y0; d_z0; d_u; d_v; d_w; d_u0; d_v0; d_w0].
Definition TransportVelocity_stage2_args : list string :=
  [d_u; d_v; d_au; d_av; d_vmag2].

(** Which rate advances which quantity in the WCSPH steppers. *)
Definition WCSPH_rates : list (string * string) :=
  [(d_u, d_au); (d_v, d_av); (d_w, d_aw);
   (d_x, d_ax); (d_y, d_ay); (d_z, d_az); (d_rho, d_arho)].

Section MoreTables.
Context {F : Type} `{Number F}.

(** The kernels that assign from predictor copies and rates only (no
    [+=], no read of a value they have not just written), each with
    its own arguments. *)
Definition predictor_kernels : list ((nat → F → Stmt (F:=F)) * list string) :=
  [((λ d_idx _, WCSPHStep_initialize d_idx), WCSPH_initialize_args);
   (WCSPHStep_stage1, WCSPH_args); (WCSPHStep_stage2, WCSPH_args);
   ((λ d_idx _, WCSPHTVDRK3Step_initialize d_idx), WCSPH_initialize_args);
   (WCSPHTVDRK3Step_stage1, WCSPH_args);
   ((λ d_idx _, SolidMechStep_initialize d_idx), SolidMech_initialize_args);
   (SolidMechStep_stage1, SolidMech_args);
   (SolidMechStep_stage2, SolidMech_args);
   ((λ d_idx _, GasDFluidStep_initialize d_idx), GasDFluid_initialize_args);
   (GasDFluidStep_stage1, GasDFluid_stage_args);
   (GasDFluidStep_stage2, GasDFluid_stage_args);
   ((λ d_idx _, TwoStageRigidBodyStep_initialize d_idx),
    RigidBody_initialize_args);
   (TwoStageRigidBodyStep_stage1, RigidBody_args);
   (TwoStageRigidBodyStep_stage2, RigidBody_args);
   ((λ d_idx _, OneStageRigidBodyStep_initialize d_idx),
    RigidBody_initialize_args)].

(** The two-stage steppers whose second stage starts again from the
    predictor copies, with that stage. *)
Definition corrector_steppers :
    list (IntegratorStep F * (nat → F → Stmt (F:=F)) * list string) :=
  [(WCSPHStep, WCSPHStep_stage2, WCSPH_args);
   (SolidMechStep, SolidMechStep_stage2, SolidMech_args);
   (GasDFluidStep, GasDFluidStep_stage2, GasDFluid_args);
   (TwoStageRigidBodyStep, TwoStageRigidBodyStep_stage2, RigidBody_args)].
End MoreTables.

(** ** The evaluator between two stages

    Between two stages the integrator has the accelerations computed
    anew (the PEC and EPEC modes the steppers' docstrings name).  As
    far as one particle is concerned, each listed rate gets a new
    element at [d_idx]. *)

Section Evaluate.
Context {F : Type} `{Number F}.

Definition evaluate (rates : list (string * F)) (d_idx : nat) : Stmt (F:=F) :=
  foldr (λ r k, seq (assign r.1 d_idx (const r.2)) k) skip rates.
End Evaluate.

(** ** Sample particles

    One-particle stores on which the statements below are exercised:
    doubles for the arithmetic-generic ones, rationals for the exact
    ones. *)

Module Sample.
Import Exact Binary64.

Definition euler : Env (F:=float) :=
  [(d_u, b64 1 0); (d_v, b64 2 0); (d_w, b64 3 0);
   (d_x, b64 0 0); (d_y, b64 0 0); (d_z, b64 0 0); (d_rho, b64 1000 0);
   (d_au, b64 1 (-1)); (d_av, b64 1 0); (d_aw, b64 0 0);
   (d_arho, b64 4 0)].

Definition wcsph : Env (F:=float) :=
  [(d_x, b64 1 0); (d_y, b64 2 0); (d_z, b64 3 0);
   (d_u, b64 1 (-1)); (d_v, b64 1 (-2)); (d_w, b64 0 0);
   (d_rho, b64 1000 0);
   (d_x0, b64 9 0); (d_y0, b64 9 0); (d_z0, b64 9 0);
   (d_u0, b64 9 0); (d_v0, b64 9 0); (d_w0, b64 9 0); (d_rho0, b64 9 0);
   (d_au, b64 3 0); (d_av, b64 5 0); (d_aw, b64 7 0);
   (d_ax, b64 1 (-1)); (d_ay, b64 1 (-2)); (d_az, b64 0 0);
   (d_arho, b64 4 0)].


Definition solid : Env (F:=float) :=
  [(d_e, b64 1 0); (d_e0, b64 9 0); (d_ae, b64 2 0);
   (d_s00, b64 1 0); (d_s01, b64 2 0); (d_s02, b64 3 0);
   (d_s11, b64 4 0); (d_s12, b64 5 0); (d_s22, b64 6 0);
   (d_s000, b64 9 0); (d_s010, b64 9 0); (d_s020, b64 9 0);
   (d_s110, b64 9 0); (d_s120, b64 9 0); (d_s220, b64 9 0);
   (d_as00, b64 1 0); (d_as01, b64 1 0); (d_as02, b64 1 0);
   (d_as11, b64 1 0); (d_as12, b64 1 0); (d_as22, b64 1 0)].


Definition transport : Env (F:=float) :=
  [(d_u, b64 1 0); (d_v, b64 2 0); (d_au, b64 3 0); (d_av, b64 4 0);
   (d_uhat, b64 5 0); (d_auhat, b64 6 0);
   (d_vhat, b64 7 0); (d_avhat, b64 8 0);
   (d_x, b64 0 0); (d_y, b64 0 0)].

Definition tvdrk3 : Env (F:=Qc) :=
  [(d_x, Q2Qc 7); (d_y, Q2Qc 0); (d_z, Q2Qc 0);
   (d_u, Q2Qc (1 # 3)); (d_v, Q2Qc 0); (d_w, Q2Qc 0);
   (d_rho, Q2Qc 1000);
   (d_x0, Q2Qc 0); (d_y0, Q2Qc 0); (d_z0, Q2Qc 0);
   (d_u0, Q2Qc 0); (d_v0, Q2Qc 0); (d_w0, Q2Qc 0); (d_rho0, Q2Qc 0);
   (d_au, Q2Qc 5); (d_av, Q2Qc 0); (d_aw, Q2Qc 0);
   (d_ax, Q2Qc 2); (d_ay, Q2Qc 0); (d_az, Q2Qc 0);
   (d_arho, Q2Qc 9)].

Definition rigid : Env (F:=Qc) :=
  [(d_x, Q2Qc 1); (d_y, Q2Qc 2); (d_z, Q2Qc 3);
   (d_x0, Q2Qc 0); (d_y0, Q2Qc 0); (d_z0, Q2Qc 0);
   (d_u, Q2Qc 4); (d_v, Q2Qc 5); (d_w, Q2Qc 6);
   (d_u0, Q2Qc 0); (d_v0, Q2Qc 0); (d_w0, Q2Qc 0);
   (d_ax, Q2Qc 0); (d_ay, Q2Qc 0); (d_az, Q2Qc (-10))].

Definition adami : Env (F:=Qc) :=
  [(d_u, Q2Qc 1); (d_v, Q2Qc 2); (d_au, Q2Qc 4); (d_av, Q2Qc 8);
   (d_uhat, Q2Qc 0); (d_auhat, Q2Qc 2); (d_vhat, Q2Qc 0); (d_avhat, Q2Qc 6);
   (d_x, Q2Qc 0); (d_y, Q2Qc 10); (d_rho, Q2Qc 1000); (d_arho, Q2Qc 20);
   (d_vmag2, Q2Qc 0)].

Definition gasd : Env (F:=float) :=
  [(d_x0, b64 0 0); (d_y0, b64 0 0); (d_z0, b64 0 0);
   (d_x, b64 1 0); (d_y, b64 0 0); (d_z, b64 0 0); (d_h, b64 1 0);
   (d_u0, b64 0 0); (d_v0, b64 0 0); (d_w0, b64 0 0);
   (d_u, b64 1 0); (d_v, b64 0 0); (d_w, b64 0 0);
   (d_e, b64 1 0); (d_e0, b64 0 0); (d_h0, b64 0 0);
   (d_converged, b64 1 0); (d_omega, b64 3 0);
   (d_au, b64 0 0); (d_av, b64 0 0); (d_aw, b64 0 0);
   (d_ae, b64 0 0)].
End Sample.

(** ** Persistence ([pysph.solver.utils], exercised by
    [solver/tests/test_solver_utils.py])

    [dump], [dump_v1] and [load] are not among the sources; the test
    only calls them. *)

Module solver_utils.
Section Persistence.
Context {F : Type}.

(** Modelled from the spec: the particle group ([ParticleArray] of
    [pysph.base], absent from the sources): a named set of property
    arrays, constants, and the ordered list of output property
    names. *)
Record ParticleArray := {
  name : string;
  properties : gmap string (list F);
  constants : gmap string (list F);
  output_property_arrays : list string
}.

(** Modelled from the spec: [ParticleArray.set_output_arrays], absent
    from the sources; it records the selection. *)
Definition set_output_arrays (pa : ParticleArray) (output : list string) :
    ParticleArray :=
  {| name := name pa; properties := properties pa;
     constants := constants pa; output_property_arrays := output |}.

(** Modelled from the spec: what a snapshot holds for one group: its
    property set, its constants, and the ordered list of output
    property names. *)
Record GroupData := {
  dumped_properties : gmap string (list F);
  dumped_constants : gmap string (list F);
  dumped_output : list string
}.

(** Modelled from the spec: the persisted snapshot: a format version,
    a mapping from group name to group data, and the solver
    metadata. *)
Record Snapshot := {
  version : nat;
  arrays : gmap string GroupData;
  solver_data : gmap string F
}.

(** Modelled from the spec: [dump], absent from the sources: the
    current layout keeps the selected properties, the constants and
    the selection itself. *)
Definition dump (particles : list ParticleArray)
    (solver_data : gmap string F) : Snapshot :=
  {| version := 2;
     arrays := list_to_map
       ((λ pa, (name pa,
          {| dumped_properties :=
               filter (λ kv, kv.1 ∈ output_property_arrays pa) (properties pa);
             dumped_constants := constants pa;
             dumped_output := output_property_arrays pa |}))
        <$> particles);
     solver_data := solver_data |}.

(** Modelled from the spec: [dump_v1], absent from the sources: the
    legacy layout has every property and no constants section. *)
Definition dump_v1 (particles : list ParticleArray)
    (solver_data : gmap string F) : Snapshot :=
  {| version := 1;
     arrays := list_to_map
       ((λ pa, (name pa,
          {| dumped_properties := properties pa;
             dumped_constants := ∅;
             dumped_output := [] |}))
        <$> particles);
     solver_data := solver_data |}.

(** Modelled from the spec: the failure of [load] on a version it
    does not know, which it reports. *)
Inductive LoadError := UnknownVersion (v : nat).

(** Modelled from the spec: the loaded data: the groups by name and
    the solver metadata ([data['arrays']], [data['solver_data']]). *)
Record Loaded := {
  loaded_arrays : gmap string ParticleArray;
  loaded_solver_data : gmap string F
}.

(** Modelled from the spec: [load], absent from the sources: both
    layouts are read, each group is rebuilt with exactly the dumped
    names, and any other version fails. *)
Definition load (snap : Snapshot) : LoadError + Loaded :=
  match version snap with
  | 1 =>
      inr {| loaded_arrays :=
               map_imap (λ n g, Some
                 {| name := n; properties := dumped_properties g;
                    constants := ∅; output_property_arrays := [] |})
                 (arrays snap);
             loaded_solver_data := solver_data snap |}
  | 2 =>
      inr {| loaded_arrays :=
               map_imap (λ n g, Some
                 {| name := n; properties := dumped_properties g;
                    constants := dumped_constants g;
                    output_property_arrays := dumped_output g |})
                 (arrays snap);
             loaded_solver_data := solver_data snap |}
  | v => inl (UnknownVersion v)
  end.
End Persistence.
Arguments ParticleArray : clear implicits.
Arguments GroupData : clear implicits.
Arguments Snapshot : clear implicits.
Arguments Loaded : clear implicits.
End solver_utils.

(** * Facts about the accessors *)

Section Accessors.
Context {F : Type} `{!Number F}.
Implicit Types (s : gmap string (list F)) (p q : string) (i j : nat).

Lemma load_store s s' p i v q j :
  store p i v s = Some s' →
  load q j s' = if decide (q = p ∧ j = i) then Some v else load q j s.
Proof.
  unfold store, load. destruct (s !! p) as [a|] eqn:Ha; simpl; [|done].
  case_decide as Hi; [|done]. intros [= <-].
  destruct (decide (q = p)) as [->|Hq].
  - rewrite lookup_insert_eq, Ha. simpl.
    destruct (decide (j = i)) as [->|Hj].
    + rewrite decide_True by done. by apply list_lookup_insert_eq.
    + rewrite decide_False by tauto. by apply list_lookup_insert_ne.
  - rewrite lookup_insert_ne by done. by rewrite decide_False by tauto.
Qed.

Lemma store_Some s p i v :
  is_Some (store p i v s) ↔ is_Some (load p i s).
Proof.
  unfold store, load. destruct (s !! p) as [a|]; simpl.
  - rewrite lookup_lt_is_Some. case_decide; split; try done; try lia.
    all: try by intros [? ?].
  - split; by intros [? ?].
Qed.

Lemma store_shape s s' p i v : store p i v s = Some s' → shape s' = shape s.
Proof.
  unfold store, shape. destruct (s !! p) as [a|] eqn:Ha; simpl; [|done].
  case_decide; [|done]. intros [= <-].
  rewrite fmap_insert, length_insert. apply insert_id.
  by rewrite lookup_fmap, Ha.
Qed.

Lemma store_lookup_ne s s' p i v q :
  store p i v s = Some s' → q ≠ p → s' !! q = s !! q.
Proof.
  unfold store. destruct (s !! p) as [a|]; simpl; [|done].
  case_decide; [|done]. intros [= <-] ?. by rewrite lookup_insert_ne.
Qed.

(** Two stores of the same shape with the same elements are equal. *)
Lemma store_ext s1 s2 :
  shape s1 = shape s2 → (∀ p i, load p i s1 = load p i s2) → s1 = s2.
Proof.
  intros Hsh Hld. apply map_eq. intros p.
  assert (length <$> s1 !! p = length <$> s2 !! p) as Hlen.
  { unfold shape in Hsh. by rewrite <-!lookup_fmap, Hsh. }
  destruct (s1 !! p) as [a|] eqn:H1, (s2 !! p) as [b|] eqn:H2; try done.
  f_equal. apply list_eq. intros i. specialize (Hld p i).
  unfold load in Hld. by rewrite H1, H2 in Hld.
Qed.

Lemma store_insert_ne s p i v q (r : list F) :
  q ≠ p → store p i v (<[q := r]> s) = (insert q r) <$> store p i v s.
Proof.
  intros Hne. unfold store. rewrite lookup_insert_ne by done.
  destruct (s !! p) as [a|]; simpl; [|done].
  case_decide; [|done]. simpl. f_equal. by apply insert_insert_ne.
Qed.

Lemma load_insert_ne s p i q (r : list F) :
  q ≠ p → load p i (<[q := r]> s) = load p i s.
Proof. intros. unfold load. by rewrite lookup_insert_ne. Qed.
End Accessors.

(** * Footprint metatheory *)

Section FootprintFacts.
Context {F : Type} `{!Number F}.
Implicit Types (s : gmap string (list F)) (p q : string) (i j : nat).
Implicit Types (R W : string → Prop) (e : Expr (F:=F)) (c : Stmt (F:=F)).

Lemma reads_weaken i R R' e : (∀ p, R p → R' p) → reads i R e → reads i R' e.
Proof. intros HR. induction 1; constructor; auto. Qed.

Lemma touches_weaken i R R' W W' c :
  (∀ p, R p → R' p) → (∀ p, W p → W' p) → touches i R W c → touches i R' W' c.
Proof. intros HR HW. induction 1; constructor; eauto using reads_weaken. Qed.

(** An expression depends only on the elements it reads. *)
Lemma reads_local i R e s1 s2 :
  reads i R e → (∀ p, R p → load p i s1 = load p i s2) → e s1 = e s2.
Proof.
  intros He Hs. induction He as [c|p Hp|e1 e2 _ IH1 _ IH2|e1 e2 _ IH1 _ IH2];
    [done|by apply Hs|..]; unfold eadd, emul; by rewrite IH1, IH2.
Qed.

Lemma reads_store i R e s s' q j v :
  reads i R e → store q j v s = Some s' → (j ≠ i ∨ ¬ R q) → e s' = e s.
Proof.
  intros He Hst Hne. apply (reads_local i R); [done|]. intros p Hp.
  rewrite (load_store _ _ _ _ _ _ _ Hst). rewrite decide_False; [done|].
  intros [-> ->]. tauto.
Qed.

Lemma reads_insert i R e s q (r : list F) :
  reads i R e → ¬ R q → e (<[q := r]> s) = e s.
Proof.
  intros He Hq. apply (reads_local i R); [done|]. intros p Hp.
  apply load_insert_ne. by intros ->.
Qed.

(** A statement leaves every other index, every property outside its
    write set, and the shape of the store as they were. *)
Lemma touches_frame i R W c s s' :
  touches i R W c → c s = Some s' →
  shape s' = shape s ∧
  (∀ q, ¬ W q → s' !! q = s !! q) ∧
  (∀ q j, j ≠ i → load q j s' = load q j s).
Proof.
  intros Hc. revert s s'.
  induction Hc as [|c1 c2 _ IH1 _ IH2|p e Hp He]; intros s s'.
  - by intros [= <-].
  - unfold seq. destruct (c1 s) as [s1|] eqn:H1; simpl; [|done]. intros H2.
    destruct (IH1 _ _ H1) as (?&Hn1&Hi1), (IH2 _ _ H2) as (?&Hn2&Hi2).
    split_and!; [congruence|..].
    + intros q Hq. by rewrite Hn2, Hn1.
    + intros q j Hj. by rewrite Hi2, Hi1.
  - unfold assign. destruct (e s) as [v|]; simpl; [|done]. intros Hst.
    split_and!.
    + eauto using store_shape.
    + intros q Hq. eapply store_lookup_ne; [done|]. by intros ->.
    + intros q j Hj. rewrite (load_store _ _ _ _ _ _ _ Hst).
      rewrite decide_False; [done|]. by intros [_ ?].
Qed.

(** The outcome at index [i] is a function of the elements at index
    [i]: nothing else is read. *)
Lemma touches_local i R W c s1 s2 :
  touches i R W c → (∀ p, load p i s1 = load p i s2) →
  option_Forall2 (λ s1' s2', ∀ p, load p i s1' = load p i s2') (c s1) (c s2).
Proof.
  intros Hc. revert s1 s2.
  induction Hc as [|c1 c2 _ IH1 _ IH2|p e Hp He]; intros s1 s2 Hs.
  - by constructor.
  - unfold seq. destruct (IH1 _ _ Hs); simpl; [by apply IH2|constructor].
  - unfold assign. rewrite (reads_local i R e s1 s2) by auto.
    destruct (e s2) as [v|]; simpl; [|constructor].
    destruct (store p i v s1) as [s1'|] eqn:H1, (store p i v s2) as [s2'|] eqn:H2.
    + constructor. intros q.
      rewrite (load_store _ _ _ _ _ _ _ H1), (load_store _ _ _ _ _ _ _ H2).
      by case_decide.
    + assert (is_Some (store p i v s2)) as [? ?]; [|congruence].
      apply store_Some. rewrite <-Hs. apply (proj1 (store_Some _ _ _ v)). by eexists.
    + assert (is_Some (store p i v s1)) as [? ?]; [|congruence].
      apply store_Some. rewrite Hs. apply (proj1 (store_Some _ _ _ v)). by eexists.
    + constructor.
Qed.

(** A property outside the footprint is neither read nor written:
    replacing its array changes nothing else, and the replacement
    survives. *)
Lemma touches_insert i R W c s q (r : list F) :
  touches i R W c → ¬ R q → ¬ W q →
  c (<[q := r]> s) = (insert q r) <$> c s.
Proof.
  intros Hc HR HW. revert s.
  induction Hc as [|c1 c2 _ IH1 _ IH2|p e Hp He]; intros s.
  - done.
  - unfold seq. rewrite IH1. destruct (c1 s); simpl; [apply IH2|done].
  - unfold assign. rewrite (reads_insert i R) by done.
    destruct (e s); simpl; [|done]. apply store_insert_ne. by intros ->.
Qed.

Lemma store_store s p i v q j w :
  i ≠ j → store p i v s ≫= store q j w = store q j w s ≫= store p i v.
Proof.
  intros Hij.
  destruct (store p i v s) as [s1|] eqn:H1, (store q j w s) as [s2|] eqn:H2; simpl.
  - destruct (store q j w s1) as [s12|] eqn:H12.
    2:{ assert (is_Some (store q j w s1)) as [? ?]; [|congruence].
        apply store_Some. rewrite (load_store _ _ _ _ _ _ _ H1).
        rewrite decide_False by lia.
        apply (proj1 (store_Some _ _ _ w)). by eexists. }
    destruct (store p i v s2) as [s21|] eqn:H21.
    2:{ assert (is_Some (store p i v s2)) as [? ?]; [|congruence].
        apply store_Some. rewrite (load_store _ _ _ _ _ _ _ H2).
        rewrite decide_False by lia.
        apply (proj1 (store_Some _ _ _ v)). by eexists. }
    f_equal. apply store_ext.
    + rewrite (store_shape _ _ _ _ _ H12), (store_shape _ _ _ _ _ H1),
        (store_shape _ _ _ _ _ H21), (store_shape _ _ _ _ _ H2). done.
    + intros r k.
      rewrite (load_store _ _ _ _ _ _ _ H12), (load_store _ _ _ _ _ _ _ H1),
        (load_store _ _ _ _ _ _ _ H21), (load_store _ _ _ _ _ _ _ H2).
      repeat case_decide; try done. lia.
  - destruct (store q j w s1) as [s12|] eqn:H12; [|done].
    assert (is_Some (store q j w s)) as [? ?]; [|congruence].
    apply store_Some.
    assert (is_Some (load q j s1)) as Hl.
    { apply (proj1 (store_Some _ _ _ w)). by eexists. }
    rewrite (load_store _ _ _ _ _ _ _ H1) in Hl.
    by rewrite decide_False in Hl by lia.
  - destruct (store p i v s2) as [s21|] eqn:H21; [|done].
    assert (is_Some (store p i v s)) as [? ?]; [|congruence].
    apply store_Some.
    assert (is_Some (load p i s2)) as Hl.
    { apply (proj1 (store_Some _ _ _ v)). by eexists. }
    rewrite (load_store _ _ _ _ _ _ _ H2) in Hl.
    by rewrite decide_False in Hl by lia.
  - done.
Qed.

Lemma commute_sym c1 c2 : commute c1 c2 → commute c2 c1.
Proof. intros Hc s. by rewrite Hc. Qed.

Lemma commute_skip c : commute skip c.
Proof. intros s. unfold seq, skip. simpl. by destruct (c s). Qed.

Lemma commute_seq c1 c2 c :
  commute c1 c → commute c2 c → commute (seq c1 c2) c.
Proof.
  intros H1 H2 s. unfold commute, seq in *.
  transitivity ((c1 s ≫= c) ≫= c2).
  - destruct (c1 s) as [s1|]; simpl; [apply H2|done].
  - rewrite H1. by destruct (c s).
Qed.

Lemma commute_assign p i e q j e' R R' :
  reads i R e → reads j R' e' → i ≠ j →
  commute (assign p i e) (assign q j e').
Proof.
  intros He He' Hij s. unfold seq, assign.
  destruct (e s) as [v|] eqn:Hv, (e' s) as [w|] eqn:Hw; simpl.
  - transitivity (store p i v s ≫= store q j w).
    { destruct (store p i v s) as [s1|] eqn:H1; simpl; [|done].
      rewrite (reads_store j R' e' s s1 p i v) by auto. by rewrite Hw. }
    rewrite store_store by done.
    destruct (store q j w s) as [s2|] eqn:H2; simpl; [|done].
    rewrite (reads_store i R e s s2 q j w) by auto. by rewrite Hv.
  - destruct (store p i v s) as [s1|] eqn:H1; simpl; [|done].
    rewrite (reads_store j R' e' s s1 p i v) by auto. by rewrite Hw.
  - destruct (store q j w s) as [s2|] eqn:H2; simpl; [|done].
    rewrite (reads_store i R e s s2 q j w) by auto. by rewrite Hv.
  - done.
Qed.

(** Kernels run on distinct particles commute. *)
Lemma touches_commute i j R W R' W' c1 c2 :
  touches i R W c1 → touches j R' W' c2 → i ≠ j → commute c1 c2.
Proof.
  intros H1 H2 Hij. induction H1 as [|? ? _ IH1 _ IH2|p e Hp He].
  - apply commute_skip.
  - by apply commute_seq.
  - apply commute_sym.
    induction H2 as [|? ? _ IH1 _ IH2|q e' Hq He'].
    + apply commute_skip.
    + by apply commute_seq.
    + apply commute_sym. eauto using commute_assign.
Qed.
End FootprintFacts.

(** * Running a kernel on one particle *)

Section LocalFacts.
Context {F : Type} `{!Number F}.
Implicit Types (s : gmap string (list F)) (env : Env (F:=F)) (p q : string) (i j : nat).

Lemma agree_get s i env p v :
  agree s i env → env_get p env = Some v → load p i s = Some v.
Proof.
  induction 1 as [|[q w] env Hq _ IH]; simpl; [done|].
  destruct (String.eqb_spec p q) as [->|_]; [by intros [= <-]|done].
Qed.

Lemma agree_store s s' i env p v :
  agree s i env → store p i v s = Some s' → agree s' i (env_set p v env).
Proof.
  intros Hs Hst. induction Hs as [|[q w] env Hq _ IH]; simpl; constructor; [|done].
  simpl in *. rewrite (load_store _ _ _ _ _ _ _ Hst).
  destruct (String.eqb_spec p q) as [->|Hne].
  - by rewrite decide_True.
  - rewrite decide_False; [done|]. by intros [-> _].
Qed.

(** Any list of entries found in [env] is agreed with too. *)
Lemma agree_sub s i env env' :
  agree s i env →
  Forall (λ qv, env_get qv.1 env = Some qv.2) env' → agree s i env'.
Proof.
  intros Hs Hsub. unfold agree. eapply Forall_impl; [exact Hsub|].
  intros [q v]. simpl. eauto using agree_get.
Qed.

Lemma eval_const s (c : F) : const c s = Some c.
Proof. done. Qed.
Lemma eval_add (e1 e2 : Expr) s x y :
  e1 s = Some x → e2 s = Some y → eadd e1 e2 s = Some (add x y).
Proof. unfold eadd. by intros -> ->. Qed.
Lemma eval_mul (e1 e2 : Expr) s x y :
  e1 s = Some x → e2 s = Some y → emul e1 e2 s = Some (mul x y).
Proof. unfold emul. by intros -> ->. Qed.

Lemma wp_skip s (Q : gmap string (list F) → Prop) : Q s → wp skip s Q.
Proof. by exists s. Qed.
Lemma wp_seq (c1 c2 : Stmt) s Q :
  wp c1 s (λ s1, wp c2 s1 Q) → wp (seq c1 c2) s Q.
Proof.
  intros (s1 & H1 & s2 & H2 & HQ). exists s2. split; [|done].
  unfold seq. by rewrite H1.
Qed.
Lemma wp_assign p i (e : Expr) s env v w Q :
  agree s i env → e s = Some v → env_get p env = Some w →
  (∀ s', agree s' i (env_set p v env) → Q s') →
  wp (assign p i e) s Q.
Proof.
  intros Hs He Hp HQ.
  destruct (proj2 (store_Some s p i v)) as [s' Hs'].
  { rewrite (agree_get _ _ _ _ _ Hs Hp). by eexists. }
  exists s'. split; [unfold assign; by rewrite He|].
  eauto using agree_store.
Qed.
End LocalFacts.

Ltac eval_expr Hs :=
  repeat first
    [ apply eval_const
    | eapply eval_add
    | eapply eval_mul
    | eapply (agree_get _ _ _ _ _ Hs); reflexivity ].

Ltac step_assign :=
  lazymatch goal with
  | Hs : agree ?s ?i ?env |- wp (assign ?p ?i ?e) ?s _ =>
      eapply (wp_assign p i e s env _ _ _ Hs);
      [ eval_expr Hs | reflexivity | ];
      clear dependent s;
      let s' := fresh "s" in let Hs' := fresh "Hs" in
      intros s' Hs'; cbn [env_set String.eqb Ascii.eqb Bool.eqb] in Hs'
  end.

(** Symbolic execution of a straight-line kernel from [agree s i env]. *)
Ltac run_kernel :=
  repeat first
    [ apply wp_seq
    | apply wp_skip
    | step_assign
    | progress unfold iadd ].

Ltac agree_from Hs :=
  apply (agree_sub _ _ _ _ Hs); repeat constructor.

(** * EulerStep *)

Section Euler.
Context {F : Type} `{!Number F}.
Local Open Scope num_scope.

(** C8. [EulerStep.stage1] first advances the velocity,
    [u' = u + dt*au] (likewise [v'], [w']), then the position with
    the velocity just computed, [x' = x + dt*u'] (likewise [y'],
    [z']), and the density, [rho' = rho + dt*arho];
    [EulerStep.initialize] changes nothing. *)
Theorem EulerStep_stage1_formula (s : gmap string (list F)) (d_idx : nat)
    (dt u v w x y z rho au av aw arho : F) :
  agree s d_idx
    [(d_u, u); (d_v, v); (d_w, w); (d_x, x); (d_y, y); (d_z, z);
     (d_rho, rho); (d_au, au); (d_av, av); (d_aw, aw); (d_arho, arho)] →
  (∃ s', EulerStep_stage1 d_idx dt s = Some s' ∧
     agree s' d_idx
       [(d_u, u + dt * au); (d_v, v + dt * av); (d_w, w + dt * aw);
        (d_x, x + dt * (u + dt * au));
        (d_y, y + dt * (v + dt * av));
        (d_z, z + dt * (w + dt * aw));
        (d_rho, rho + dt * arho)]) ∧
  EulerStep_initialize s = Some s.
Proof.
  intros Hs. split; [|done].
  change (wp (EulerStep_stage1 d_idx dt) s (λ s', agree s' d_idx
       [(d_u, u + dt * au); (d_v, v + dt * av); (d_w, w + dt * aw);
        (d_x, x + dt * (u + dt * au));
        (d_y, y + dt * (v + dt * av));
        (d_z, z + dt * (w + dt * aw));
        (d_rho, rho + dt * arho)])).
  unfold EulerStep_stage1. run_kernel. agree_from Hs.
Qed.
End Euler.

Lemma agree_sub_eq {F} `{!Number F} (s : gmap string (list F)) i env env' :
  agree s i env →
  Forall (λ qv, ∃ v, env_get qv.1 env = Some v ∧ v = qv.2) env' → agree s i env'.
Proof.
  intros Hs Hsub. unfold agree. eapply Forall_impl; [exact Hsub|].
  intros [q v] (v' & Hv' & <-). simpl. eauto using agree_get.
Qed.

Module ExactFacts.
Import Exact.
Local Open Scope Qc_scope.

Lemma add_Qc (x y : Qc) : add x y = x + y. Proof. done. Qed.
Lemma mul_Qc (x y : Qc) : mul x y = x * y. Proof. done. Qed.
Lemma div_Qc (x y : Qc) : div x y = x / y. Proof. done. Qed.
Lemma f0_Qc : f0 = 0. Proof. by apply Qc_is_canon. Qed.
Lemma f1_Qc : f1 = 1. Proof. by apply Qc_is_canon. Qed.
Lemma f2_Qc : f2 = 1 + 1. Proof. by apply Qc_is_canon. Qed.
Lemma f3_Qc : f3 = 1 + 1 + 1. Proof. by apply Qc_is_canon. Qed.
Lemma f0_5_Qc : f0_5 = 1 / (1 + 1). Proof. by apply Qc_is_canon. Qed.
Lemma f0_25_Qc : f0_25 = 1 / (1 + 1 + 1 + 1). Proof. by apply Qc_is_canon. Qed.
Lemma f0_75_Qc : f0_75 = (1 + 1 + 1) / (1 + 1 + 1 + 1). Proof. by apply Qc_is_canon. Qed.

Lemma two_neq_0 : 1 + 1 ≠ 0. Proof. done. Qed.
Lemma three_neq_0 : 1 + 1 + 1 ≠ 0. Proof. done. Qed.
Lemma four_neq_0 : 1 + 1 + 1 + 1 ≠ 0. Proof. done. Qed.
End ExactFacts.

Ltac exact_arith :=
  rewrite ?ExactFacts.f0_Qc, ?ExactFacts.f1_Qc, ?ExactFacts.f2_Qc,
    ?ExactFacts.f3_Qc, ?ExactFacts.f0_5_Qc, ?ExactFacts.f0_25_Qc,
    ?ExactFacts.f0_75_Qc;
  cbn [add mul div Exact.Qc_number];
  first [ring | field; repeat split; done].

Ltac agree_exact Hs :=
  apply (agree_sub_eq _ _ _ _ Hs);
  repeat (constructor; [eexists; split; [reflexivity|cbn [fst snd]; exact_arith]|]);
  constructor.

Section TVDRK3.
Import Exact.
Local Open Scope Qc_scope.

(** C2. For [WCSPHTVDRK3Step], with the rates held constant across
    the three stages, [initialize], [stage1], [stage2], [stage3] with
    the same [dt] leave each of [u], [v], [w], [x], [y], [z], [rho]
    at [q + dt * a_q], [q] being its value before the step: the
    state one Euler step of size [dt] gives.  The coefficients are
    the literals of the source, [0.75], [0.25] and [1./3.], [2./3.],
    read exactly. *)
Theorem WCSPHTVDRK3Step_constant_rhs (s : gmap string (list Qc)) (d_idx : nat)
    (dt x y z u v w rho x0 y0 z0 u0 v0 w0 rho0 au av aw ax ay az arho : Qc) :
  agree s d_idx
    [(d_x, x); (d_y, y); (d_z, z); (d_u, u); (d_v, v); (d_w, w);
     (d_rho, rho);
     (d_x0, x0); (d_y0, y0); (d_z0, z0); (d_u0, u0); (d_v0, v0);
     (d_w0, w0); (d_rho0, rho0);
     (d_au, au); (d_av, av); (d_aw, aw); (d_ax, ax); (d_ay, ay);
     (d_az, az); (d_arho, arho)] →
  ∃ s', timestep WCSPHTVDRK3Step d_idx dt s = Some s' ∧
    agree s' d_idx
      [(d_u, u + dt * au); (d_v, v + dt * av); (d_w, w + dt * aw);
       (d_x, x + dt * ax); (d_y, y + dt * ay); (d_z, z + dt * az);
       (d_rho, rho + dt * arho)].
Proof.
  intros Hs.
  change (wp (timestep WCSPHTVDRK3Step d_idx dt) s (λ s', agree s' d_idx
      [(d_u, u + dt * au); (d_v, v + dt * av); (d_w, w + dt * aw);
       (d_x, x + dt * ax); (d_y, y + dt * ay); (d_z, z + dt * az);
       (d_rho, rho + dt * arho)])).
  unfold timestep, run_stages. simpl.
  unfold WCSPHTVDRK3Step_initialize, WCSPHTVDRK3Step_stage1,
    WCSPHTVDRK3Step_stage2, WCSPHTVDRK3Step_stage3.
  run_kernel. 
  agree_exact Hs.
Qed.
End TVDRK3.

(** * The two arithmetics satisfy the zero-step laws *)

Module ExactLaws.
Import Exact.
Local Open Scope Qc_scope.

Lemma Qc_mul_zero_l (z a : Qc) : z = f0 → True → mul z a = f0.
Proof. intros -> _. exact_arith. Qed.
Lemma Qc_mul_zero_r (a z : Qc) : True → z = f0 → mul a z = f0.
Proof. intros _ ->. exact_arith. Qed.
Lemma Qc_add_zero_r (x z : Qc) : z = f0 → add x z = x.
Proof. intros ->. exact_arith. Qed.
Lemma Qc_blend_stage2 (x : Qc) : add (mul f0_75 x) (mul f0_25 x) = x.
Proof. exact_arith. Qed.
Lemma Qc_blend_stage3 (x : Qc) :
  add (mul (div f1 f3) x) (mul (div f2 f3) x) = x.
Proof. exact_arith. Qed.

(** Every rational is finite, and [same] is equality. *)
#[export] Instance Qc_zero_laws : ZeroLaws Qc :=
  {| finite := λ _, True; same := eq;
     same_equiv := _; add_same := _; mul_same := _; finite_same := _;
     finite_half := I;
     mul_zero_l := Qc_mul_zero_l; mul_zero_r := Qc_mul_zero_r;
     add_zero_r := Qc_add_zero_r |}.

#[export] Instance Qc_blend_laws : BlendLaws Qc :=
  {| blend_stage2 := Qc_blend_stage2; blend_stage3 := Qc_blend_stage3 |}.
End ExactLaws.

Module Binary64Laws.
Import Binary64.

Lemma f0_b64 : @f0 float _ = S754_zero false.
Proof. reflexivity. Qed.

Lemma same_zero (z : float) : numerically_equal z f0 ↔ is_zero z = true.
Proof.
  rewrite f0_b64. unfold numerically_equal. split.
  - intros [->|[? _]]; [done|]. by destruct (is_zero z).
  - intros Hz. right. split; by rewrite ?Hz.
Qed.

Lemma numerically_equal_equiv : Equivalence numerically_equal.
Proof.
  split.
  - by left.
  - intros x y [->|[? ?]]; [by left|by right].
  - intros x y z [->|[Hx Hy]] [->|[Hy' Hz]];
      [by left|by right|by right|by right].
Qed.

Lemma add_numerically_equal :
  Proper (numerically_equal ==> numerically_equal ==> numerically_equal) add.
Proof.
  intros x x' [->|[Hx Hx']] y y' [->|[Hy Hy']].
  - by left.
  - destruct y as [sy| | |], y' as [sy'| | |]; try done.
    destruct x' as [sx| | |]; simpl; try by left.
    right. split; by repeat case_match.
  - destruct x as [sx| | |], x' as [sx'| | |]; try done.
    destruct y' as [sy| | |]; simpl; try by left.
    right. split; by repeat case_match.
  - destruct x as [sx| | |], x' as [sx'| | |]; try done.
    destruct y as [sy| | |], y' as [sy'| | |]; try done.
    right. simpl. split; by repeat case_match.
Qed.

Lemma mul_numerically_equal :
  Proper (numerically_equal ==> numerically_equal ==> numerically_equal) mul.
Proof.
  intros x x' [->|[Hx Hx']] y y' [->|[Hy Hy']].
  - by left.
  - destruct y as [sy| | |], y' as [sy'| | |]; try done.
    destruct x' as [sx| | |]; simpl; first [by left|by right].
  - destruct x as [sx| | |], x' as [sx'| | |]; try done.
    destruct y' as [sy| | |]; simpl; first [by left|by right].
  - destruct x as [sx| | |], x' as [sx'| | |]; try done.
    destruct y as [sy| | |], y' as [sy'| | |]; try done.
    by right.
Qed.

Lemma is_finite_numerically_equal :
  Proper (numerically_equal ==> iff) (λ x, is_finite x = true).
Proof. intros x y [->|[Hx Hy]]; [done|]. by destruct x, y. Qed.

Lemma b64_mul_zero_l (z a : float) :
  numerically_equal z f0 → is_finite a = true → numerically_equal (mul z a) f0.
Proof. intros Hz%same_zero Ha. apply same_zero. by destruct z, a. Qed.
Lemma b64_mul_zero_r (a z : float) :
  is_finite a = true → numerically_equal z f0 → numerically_equal (mul a z) f0.
Proof. intros Ha Hz%same_zero. apply same_zero. by destruct z, a. Qed.
Lemma b64_add_zero_r (x z : float) :
  numerically_equal z f0 → numerically_equal (add x z) x.
Proof.
  intros Hz%same_zero. destruct z as [sz| | |]; try done.
  destruct x as [sx| | |]; simpl; try by left.
  right. split; by repeat case_match.
Qed.

#[export] Instance b64_zero_laws : ZeroLaws float :=
  {| finite := λ x, is_finite x = true; same := numerically_equal;
     same_equiv := numerically_equal_equiv;
     add_same := add_numerically_equal;
     mul_same := mul_numerically_equal;
     finite_same := is_finite_numerically_equal;
     finite_half := eq_refl;
     mul_zero_l := b64_mul_zero_l; mul_zero_r := b64_mul_zero_r;
     add_zero_r := b64_add_zero_r |}.
End Binary64Laws.

(** Unfold a stepper down to its assignments. *)
Ltac unfold_kernels :=
  cbv [timestep run_stages foldr kernels initialize stages
       EulerStep WCSPHStep WCSPHTVDRK3Step SolidMechStep
       TransportVelocityStep AdamiVerletStep GasDFluidStep
       TwoStageRigidBodyStep OneStageRigidBodyStep VerletSymplecticWCSPHStep
       IntegratorStep_initialize IntegratorStep_stage1 IntegratorStep_stage2
       EulerStep_initialize EulerStep_stage1
       WCSPHStep_initialize WCSPHStep_stage1 WCSPHStep_stage2
       WCSPHTVDRK3Step_initialize WCSPHTVDRK3Step_stage1
       WCSPHTVDRK3Step_stage2 WCSPHTVDRK3Step_stage3
       SolidMechStep_initialize SolidMechStep_stage1 SolidMechStep_stage2
       TransportVelocityStep_initialize TransportVelocityStep_stage1
       TransportVelocityStep_stage2
       AdamiVerletStep_initialize AdamiVerletStep_stage1 AdamiVerletStep_stage2
       GasDFluidStep_initialize GasDFluidStep_stage1 GasDFluidStep_stage2
       TwoStageRigidBodyStep_initialize TwoStageRigidBodyStep_stage1
       TwoStageRigidBodyStep_stage2
       OneStageRigidBodyStep_initialize OneStageRigidBodyStep_stage1
       OneStageRigidBodyStep_stage2
       VerletSymplecticWCSPHStep_initialize VerletSymplecticWCSPHStep_stage1
       VerletSymplecticWCSPHStep_stage2].

(** The footprint of a concrete kernel, by walking its assignments. *)
Ltac solve_touches :=
  lazymatch goal with
  | |- touches _ _ _ ?c =>
      tryif is_evar c then fail "solve_touches: unknown statement"
      else (unfold_kernels; unfold iadd; repeat constructor)
  end.

Section Bound.
Context {F : Type} `{!Number F}.
Implicit Types (s : gmap string (list F)) (i : nat).

(** Every kernel reads and writes within its stepper's arguments. *)
Lemma steppers_touch step args i dt :
  (step, args) ∈ steppers →
  Forall (λ k, touches i (.∈ args) (.∈ args) (k i dt)) (kernels step).
Proof.
  intros Hin. unfold steppers in Hin.
  repeat (apply elem_of_cons in Hin as [[= -> ->]|Hin]);
    [..|by apply elem_of_nil in Hin].
  all: unfold_kernels; unfold iadd; repeat constructor.
Qed.
End Bound.

Section Timestep.
Context {F : Type} `{!Number F}.
Implicit Types (s : gmap string (list F)) (i : nat).


(** Values at index [i] for a list of bound properties. *)
Lemma bound_agree (P : string → F → Prop) s i (args : list string) :
  (∀ p, p ∈ args → ∃ v, load p i s = Some v ∧ P p v) →
  ∃ env : Env, env.*1 = args ∧ agree s i env ∧ Forall (λ qv, P qv.1 qv.2) env.
Proof.
  induction args as [|p args IH]; intros Hb.
  - exists []. by repeat constructor.
  - destruct (Hb p) as (v & Hv & HP); [by left|].
    destruct IH as (env & Hdom & Hs & HPs).
    { intros q Hq. apply Hb. by right. }
    exists ((p, v) :: env). simpl. split_and!; [by f_equal|by constructor..].
Qed.


End Timestep.

Lemma cons_eq_inv {A} (x y : A) (l k : list A) :
  x :: l = y :: k → x = y ∧ l = k.
Proof. by intros [= -> ->]. Qed.

(** Name the values of the bound properties: from a hypothesis on
    every property of a concrete list to an [agree] with one variable
    per property. *)
Ltac name_bound Hb Hs HP :=
  let env := fresh "env" in
  let Hdom := fresh "Hdom" in
  apply bound_agree in Hb as (env & Hdom & Hs & HP);
  cbv [app] in Hdom;
  repeat (destruct env as [|[? ?val] env]; simpl in Hdom;
          [discriminate Hdom|]; apply cons_eq_inv in Hdom as [-> Hdom]);
  destruct env; [|simpl in Hdom; discriminate Hdom]; clear Hdom;
  repeat (apply Forall_cons in HP as [? HP]); clear HP; simpl in *;
  repeat match goal with
    | Hc : _ ∧ _ |- _ => destruct Hc as [? ?]
    end;
  repeat match goal with
    | Hd : _ ∈ _ → _ |- _ =>
        first [specialize (Hd ltac:(repeat constructor)) | clear Hd]
    end.

Section ZeroStep.
Context {F : Type} `{ZeroLaws F}.
Local Open Scope num_scope.

Lemma mul_f0_l (a : F) : finite a → same (f0 * a) f0.
Proof. intros. by apply mul_zero_l. Qed.
Lemma half_f0 : same (f0_5 * f0 : F) f0.
Proof. apply mul_zero_r; [apply finite_half|done]. Qed.
Lemma add_f0_r (x : F) : same (x + f0) x.
Proof. by apply add_zero_r. Qed.
End ZeroStep.

(** Simplify an expression in which the timestep is zero. *)
Ltac zsimp :=
  repeat first
    [ rewrite half_f0
    | rewrite add_f0_r
    | rewrite mul_f0_l by zfinite
    | rewrite blend_stage2
    | rewrite blend_stage3 ]
with zfinite :=
  first [ assumption | apply finite_half | zsimp; assumption ].




Section ZeroStepLemmas.
Context {F : Type} `{ZeroLaws F}.
Local Open Scope num_scope.


End ZeroStepLemmas.

(** * A timestep of size zero *)

Section Bookkeeping.
Context {F : Type} `{!Number F}.

End Bookkeeping.

(** To observe one element after a run, compute the run and the load
    together. *)
Lemma run_then_load {F} `{!Number F} (c : Stmt (F:=F)) s p i v :
  c s ≫= load p i = Some v → ∃ s', c s = Some s' ∧ load p i s' = Some v.
Proof. destruct (c s) as [s'|]; [|done]. by exists s'. Qed.


Import Exact Binary64 ExactLaws Binary64Laws.




(** * Predictor-corrector steppers *)

Section SameOutcome.
Context {F : Type} `{!Number F}.

(** Two kernels that leave the same values at index [i] for every
    property they may write leave the same store. *)
Lemma same_outcome i R (Wl : list string) (c1 c2 : Stmt (F:=F))
    sa sb s1 s2 env :
  touches i R (.∈ Wl) c1 → touches i R (.∈ Wl) c2 →
  c1 sa = Some s1 → c2 sb = Some s2 →
  agree s1 i env → agree s2 i env →
  Forall (λ q, is_Some (env_get q env)) Wl →
  shape sa = shape sb →
  (∀ q j, j ≠ i ∨ q ∉ Wl → load q j sa = load q j sb) →
  s1 = s2.
Proof.
  intros Ht1 Ht2 H1 H2 Hs1 Hs2 Hcov Hsh Hab.
  destruct (touches_frame _ _ _ _ _ _ Ht1 H1) as (Hsh1 & Hn1 & Hi1).
  destruct (touches_frame _ _ _ _ _ _ Ht2 H2) as (Hsh2 & Hn2 & Hi2).
  apply store_ext; [congruence|]. intros q j.
  destruct (decide (j = i)) as [->|Hj]; [|rewrite Hi1, Hi2; auto].
  destruct (decide (q ∈ Wl)) as [Hq|Hq].
  - rewrite Forall_forall in Hcov. destruct (Hcov q Hq) as [v Hv].
    by rewrite (agree_get _ _ _ _ _ Hs1 Hv), (agree_get _ _ _ _ _ Hs2 Hv).
  - transitivity (load q i sa); [|transitivity (load q i sb)]; [|auto|].
    + unfold load. by rewrite Hn1.
    + unfold load. by rewrite Hn2.
Qed.
End SameOutcome.

(** Run a kernel symbolically: [Hrun : c s = Some s'] and
    [Hs' : agree s' i env'] for the computed [env']. *)
Ltac run_from c s i s' Hrun Hs' :=
  eassert (wp c s (λ s', agree s' i _)) as (s' & Hrun & Hs');
  [ unfold_kernels; run_kernel;
    lazymatch goal with Hx : agree _ _ _ |- _ => exact Hx end | ].

Ltac covered := repeat constructor; by eexists.

Section PredictorCorrector.
Context {F : Type} `{!Number F}.
Local Open Scope num_scope.

(** C3. For [WCSPHStep] and [SolidMechStep], with the rates held
    constant, [initialize], [stage1], [stage2] leave every updated
    quantity at [q + dt * a_q], [q] being its value before the step:
    one Euler-type step of size [dt].  The result is that of
    [initialize] followed by [stage2] alone: [stage2] computes from
    the predictor copies and the rates only. *)
Theorem predictor_corrector_is_full_step (s : gmap string (list F))
    (d_idx : nat)
    (dt x y z u v w rho x0 y0 z0 u0 v0 w0 rho0 au av aw ax ay az arho : F)
    (e e0 ae s00 s01 s02 s11 s12 s22 s000 s010 s020 s110 s120 s220
     as00 as01 as02 as11 as12 as22 : F) :
  let wcsph : Env :=
    [(d_x, x); (d_y, y); (d_z, z); (d_u, u); (d_v, v); (d_w, w);
     (d_rho, rho);
     (d_x0, x0); (d_y0, y0); (d_z0, z0); (d_u0, u0); (d_v0, v0);
     (d_w0, w0); (d_rho0, rho0);
     (d_au, au); (d_av, av); (d_aw, aw); (d_ax, ax); (d_ay, ay);
     (d_az, az); (d_arho, arho)] in
  let solid : Env :=
    [(d_e, e); (d_e0, e0); (d_ae, ae);
     (d_s00, s00); (d_s01, s01); (d_s02, s02);
     (d_s11, s11); (d_s12, s12); (d_s22, s22);
     (d_s000, s000); (d_s010, s010); (d_s020, s020);
     (d_s110, s110); (d_s120, s120); (d_s220, s220);
     (d_as00, as00); (d_as01, as01); (d_as02, as02);
     (d_as11, as11); (d_as12, as12); (d_as22, as22)] in
  let wcsph_result : Env :=
    [(d_u, u + dt * au); (d_v, v + dt * av); (d_w, w + dt * aw);
     (d_x, x + dt * ax); (d_y, y + dt * ay); (d_z, z + dt * az);
     (d_rho, rho + dt * arho)] in
  let solid_result : Env :=
    [(d_e, e + dt * ae);
     (d_s00, s00 + dt * as00); (d_s01, s01 + dt * as01);
     (d_s02, s02 + dt * as02); (d_s11, s11 + dt * as11);
     (d_s12, s12 + dt * as12); (d_s22, s22 + dt * as22)] in
  (agree s d_idx wcsph →
   ∃ s', timestep WCSPHStep d_idx dt s = Some s' ∧
     agree s' d_idx wcsph_result ∧
     seq (WCSPHStep_initialize d_idx) (WCSPHStep_stage2 d_idx dt) s = Some s') ∧
  (agree s d_idx (wcsph ++ solid)%list →
   ∃ s', timestep SolidMechStep d_idx dt s = Some s' ∧
     agree s' d_idx (wcsph_result ++ solid_result)%list ∧
     seq (SolidMechStep_initialize d_idx) (SolidMechStep_stage2 d_idx dt) s
       = Some s').
Proof.
  intros wcsph solid wcsph_result solid_result.
  subst wcsph solid wcsph_result solid_result. cbv [app]. split; intros Hs.
  - run_from (timestep (WCSPHStep (F:=F)) d_idx dt) s d_idx s1 Hrun1 Hs1.
    run_from (seq (WCSPHStep_initialize (F:=F) d_idx) (WCSPHStep_stage2 d_idx dt))
      s d_idx s2 Hrun2 Hs2.
    exists s1. split_and!; [done|agree_from Hs1|].
    rewrite Hrun2. f_equal. symmetry.
    eapply (same_outcome d_idx (.∈ WCSPH_args) WCSPH_args
              (timestep WCSPHStep d_idx dt)
              (seq (WCSPHStep_initialize d_idx) (WCSPHStep_stage2 d_idx dt))
              s s s1 s2);
      [solve_touches|solve_touches|exact Hrun1|exact Hrun2|exact Hs1|
       exact Hs2|covered|done|done].
  - run_from (timestep (SolidMechStep (F:=F)) d_idx dt) s d_idx s1 Hrun1 Hs1.
    run_from (seq (SolidMechStep_initialize (F:=F) d_idx)
                (SolidMechStep_stage2 d_idx dt)) s d_idx s2 Hrun2 Hs2.
    exists s1. split_and!; [done|agree_from Hs1|].
    rewrite Hrun2. f_equal. symmetry.
    eapply (same_outcome d_idx (.∈ SolidMech_args) SolidMech_args
              (timestep SolidMechStep d_idx dt)
              (seq (SolidMechStep_initialize d_idx)
                 (SolidMechStep_stage2 d_idx dt))
              s s s1 s2);
      [solve_touches|solve_touches|exact Hrun1|exact Hrun2|exact Hs1|
       exact Hs2|covered|done|done].
Qed.
End PredictorCorrector.

(** * VerletSymplecticWCSPHStep *)

Section Verlet.
Context {F : Type} `{!Number F}.
Local Open Scope num_scope.

End Verlet.

(** * Rigid-body steppers *)

Module ExactMore.
Import Exact.
Local Open Scope Qc_scope.
Lemma half_Qc : Q2Qc (1 # 2) = 1 / (1 + 1).
Proof. by apply Qc_is_canon. Qed.
End ExactMore.

Section RigidBody.
Import Exact.
Local Open Scope Qc_scope.

(** C4. For [TwoStageRigidBodyStep] and [OneStageRigidBodyStep], with
    the prescribed acceleration held in [(ax, ay, az)] across both
    stages, [initialize], [stage1], [stage2] over one [dt] leave
    each position coordinate at [x + u*dt + (1/2)*ax*dt*dt] and each
    velocity component at [u + ax*dt], [x] and [u] being the values
    before the step (exact arithmetic). *)
Theorem rigid_body_constant_acceleration (s : gmap string (list Qc))
    (d_idx : nat)
    (dt x y z x0 y0 z0 u v w u0 v0 w0 ax ay az : Qc) (step : IntegratorStep Qc) :
  step ∈ [TwoStageRigidBodyStep; OneStageRigidBodyStep] →
  agree s d_idx
    [(d_x, x); (d_y, y); (d_z, z); (d_x0, x0); (d_y0, y0); (d_z0, z0);
     (d_u, u); (d_v, v); (d_w, w); (d_u0, u0); (d_v0, v0); (d_w0, w0);
     (d_ax, ax); (d_ay, ay); (d_az, az)] →
  ∃ s', timestep step d_idx dt s = Some s' ∧
    agree s' d_idx
      [(d_x, x + u * dt + Q2Qc (1 # 2) * ax * dt * dt);
       (d_y, y + v * dt + Q2Qc (1 # 2) * ay * dt * dt);
       (d_z, z + w * dt + Q2Qc (1 # 2) * az * dt * dt);
       (d_u, u + ax * dt); (d_v, v + ay * dt); (d_w, w + az * dt)].
Proof.
  intros Hstep Hs.
  repeat (apply elem_of_cons in Hstep as [->|Hstep]);
    [..|by apply elem_of_nil in Hstep].
  - run_from (timestep (TwoStageRigidBodyStep (F:=Qc)) d_idx dt) s d_idx s' Hrun Hs'.
    exists s'. split; [done|].
    rewrite !ExactMore.half_Qc. agree_exact Hs'.
  - run_from (timestep (OneStageRigidBodyStep (F:=Qc)) d_idx dt) s d_idx s' Hrun Hs'.
    exists s'. split; [done|].
    rewrite !ExactMore.half_Qc. agree_exact Hs'.
Qed.
End RigidBody.

(** * TransportVelocityStep *)

Section TransportVelocityRun.
Context {F : Type} `{!Number F}.
Local Open Scope num_scope.

Lemma TransportVelocityStep_stage1_run (s : gmap string (list F)) d_idx
    (dt u v au av uhat auhat vhat avhat x y : F) :
  agree s d_idx
    [(d_u, u); (d_v, v); (d_au, au); (d_av, av);
     (d_uhat, uhat); (d_auhat, auhat); (d_vhat, vhat); (d_avhat, avhat);
     (d_x, x); (d_y, y)] →
  let dtb2 := f0_5 * dt in
  let u' := u + dtb2 * au in
  let v' := v + dtb2 * av in
  let uhat' := u' + dtb2 * auhat in
  let vhat' := v' + dtb2 * avhat in
  ∃ s', TransportVelocityStep_stage1 d_idx dt s = Some s' ∧
    agree s' d_idx
      [(d_u, u'); (d_v, v'); (d_uhat, uhat'); (d_vhat, vhat');
       (d_x, x + dt * uhat'); (d_y, y + dt * vhat')] ∧
    s' !! d_rho = s !! d_rho ∧
    (∀ a b sa sb,
       store d_uhat d_idx a s = Some sa → store d_vhat d_idx b sa = Some sb →
       TransportVelocityStep_stage1 d_idx dt sb = Some s').
Proof.
  intros Hs dtb2 u' v' uhat' vhat'. subst dtb2 u' v' uhat' vhat'.
  pose proof Hs as Hs0.
  run_from (TransportVelocityStep_stage1 (F:=F) d_idx dt) s d_idx s' Hrun Hs'.
  pose (args := [d_u; d_v; d_au; d_av; d_uhat; d_auhat; d_vhat; d_avhat;
                 d_x; d_y]).
  assert (touches d_idx (.∈ args) (.∈ args)
            (TransportVelocityStep_stage1 (F:=F) d_idx dt)) as Ht
    by (subst args; solve_touches).
  exists s'. split_and!; [done|agree_from Hs'| |].
  - apply (touches_frame d_idx _ _ _ _ _ Ht Hrun).
    intros Hin. repeat (apply elem_of_cons in Hin as [[=]|Hin]).
    by apply elem_of_nil in Hin.
  - intros a b sa sb Ha Hb.
    assert (agree sb d_idx
      [(d_u, u); (d_v, v); (d_au, au); (d_av, av);
       (d_uhat, a); (d_auhat, auhat); (d_vhat, b); (d_avhat, avhat);
       (d_x, x); (d_y, y)]) as Hsb.
    { exact (agree_store _ _ _ _ _ _
               (agree_store _ _ _ _ _ _ Hs0 Ha) Hb). }
    run_from (TransportVelocityStep_stage1 (F:=F) d_idx dt) sb d_idx sb' Hrunb Hsb'.
    rewrite Hrunb. f_equal.
    eapply (same_outcome d_idx (.∈ args) args
              (TransportVelocityStep_stage1 d_idx dt)
              (TransportVelocityStep_stage1 d_idx dt) sb s sb' s');
      [exact Ht|exact Ht|exact Hrunb|exact Hrun|exact Hsb'|exact Hs'|
       covered| |].
    + by rewrite (store_shape _ _ _ _ _ Hb), (store_shape _ _ _ _ _ Ha).
    + intros q j Hqj.
      rewrite (load_store _ _ _ _ _ _ _ Hb), (load_store _ _ _ _ _ _ _ Ha).
      rewrite !decide_False; [done|..]; intros [-> ->];
        (destruct Hqj as [?|Hq]; [done|]); apply Hq;
        subst args; repeat constructor.
Qed.
End TransportVelocityRun.

Section TransportVelocity.
Import Exact Binary64 ExactLaws Binary64Laws.

(** C10 (as amended). [TransportVelocityStep.stage1] overwrites the
    advection velocity: [uhat = u' + (0.5*dt)*auhat] with
    [u' = u + (0.5*dt)*au] the velocity just half-stepped (likewise
    [vhat]), and the position moves along it, [x += dt*uhat]; the
    prior [uhat], [vhat] are never read: storing any other value
    there before the call gives the same store after it; the density
    array is not touched.  With [dt = 0.0] the call sets [(uhat,
    vhat)] to [(u, v)] and leaves position and velocity as they were:
    exactly in exact arithmetic, and in binary64 up to the sign of a
    zero when the velocity and the four rates are finite. *)
Theorem TransportVelocityStep_stage1_advection :
  (∀ F (num : Number F) (s : gmap string (list F)) d_idx
     (dt u v au av uhat auhat vhat avhat x y : F),
     agree s d_idx
       [(d_u, u); (d_v, v); (d_au, au); (d_av, av);
        (d_uhat, uhat); (d_auhat, auhat); (d_vhat, vhat); (d_avhat, avhat);
        (d_x, x); (d_y, y)] →
     let dtb2 := mul f0_5 dt in
     let u' := add u (mul dtb2 au) in
     let v' := add v (mul dtb2 av) in
     let uhat' := add u' (mul dtb2 auhat) in
     let vhat' := add v' (mul dtb2 avhat) in
     ∃ s', TransportVelocityStep_stage1 d_idx dt s = Some s' ∧
       agree s' d_idx
         [(d_u, u'); (d_v, v'); (d_uhat, uhat'); (d_vhat, vhat');
          (d_x, add x (mul dt uhat')); (d_y, add y (mul dt vhat'))] ∧
       s' !! d_rho = s !! d_rho ∧
       (∀ a b sa sb,
          store d_uhat d_idx a s = Some sa → store d_vhat d_idx b sa = Some sb →
          TransportVelocityStep_stage1 d_idx dt sb = Some s')) ∧
  (∀ (s : gmap string (list Qc)) d_idx
     (u v au av uhat auhat vhat avhat x y : Qc),
     agree s d_idx
       [(d_u, u); (d_v, v); (d_au, au); (d_av, av);
        (d_uhat, uhat); (d_auhat, auhat); (d_vhat, vhat); (d_avhat, avhat);
        (d_x, x); (d_y, y)] →
     ∃ s', TransportVelocityStep_stage1 d_idx f0 s = Some s' ∧
       agree s' d_idx
         [(d_u, u); (d_v, v); (d_uhat, u); (d_vhat, v);
          (d_x, x); (d_y, y)]) ∧
  (∀ (s : gmap string (list float)) d_idx
     (u v au av uhat auhat vhat avhat x y : float),
     agree s d_idx
       [(d_u, u); (d_v, v); (d_au, au); (d_av, av);
        (d_uhat, uhat); (d_auhat, auhat); (d_vhat, vhat); (d_avhat, avhat);
        (d_x, x); (d_y, y)] →
     Forall (λ a, is_finite a = true) [u; v; au; av; auhat; avhat] →
     ∃ s' u' v' uhat' vhat' x' y',
       TransportVelocityStep_stage1 d_idx f0 s = Some s' ∧
       agree s' d_idx
         [(d_u, u'); (d_v, v'); (d_uhat, uhat'); (d_vhat, vhat');
          (d_x, x'); (d_y, y')] ∧
       Forall2 numerically_equal
         [u'; v'; uhat'; vhat'; x'; y'] [u; v; u; v; x; y]).
Proof.
  split_and!.
  - intros F num. exact (TransportVelocityStep_stage1_run (F:=F)).
  - intros s i u v au av uhat auhat vhat avhat x y Hs.
    destruct (TransportVelocityStep_stage1_run s i f0 _ _ _ _ _ _ _ _ _ _ Hs)
      as (s' & Hrun & Hs' & _).
    exists s'. split; [done|]. agree_exact Hs'.
  - intros s i u v au av uhat auhat vhat avhat x y Hs Hfin.
    repeat (apply Forall_cons in Hfin as [? Hfin]). clear Hfin.
    destruct (TransportVelocityStep_stage1_run s i f0 _ _ _ _ _ _ _ _ _ _ Hs)
      as (s' & Hrun & Hs' & _).
    eexists s', _, _, _, _, _, _. split_and!; [exact Hrun|exact Hs'|].
    change numerically_equal with (same (F:=float)).
    change (λ a : float, is_finite a = true) with (finite (F:=float)) in *.
    repeat (constructor; [zsimp; reflexivity|]). constructor.
Qed.
End TransportVelocity.

(** * Frames: predictor copies and particle locality *)

(** A property name outside a concrete list. *)
Ltac not_among :=
  let Hin := fresh in
  intros Hin; repeat (apply elem_of_cons in Hin as [[=]|Hin]);
  by apply elem_of_nil in Hin.

(** The footprint of a concrete kernel, with [side] for the conditions
    on property names. *)
Ltac walk_touches side :=
  lazymatch goal with
  | |- touches _ _ _ ?c =>
      tryif is_evar c then fail "walk_touches: unknown statement"
      else (unfold_kernels; unfold iadd;
            repeat first
              [ apply touches_skip | apply touches_seq
              | apply touches_assign; [side|]
              | apply reads_const | apply reads_load; side
              | apply reads_add | apply reads_mul ])
  end.

Section Frames.
Context {F : Type} `{!Number F}.
Implicit Types (s : gmap string (list F)) (i j : nat).

(** No stage writes a predictor property. *)
Lemma stages_spare_predictors step args k i dt :
  (step, args) ∈ steppers → k ∈ stages step →
  touches i (λ _, True) (.∉ predictor_props) (k i dt).
Proof.
  intros Hin Hk. unfold steppers in Hin.
  repeat (apply elem_of_cons in Hin as [[= -> ->]|Hin]);
    [..|by apply elem_of_nil in Hin].
  all: simpl in Hk; repeat (apply elem_of_cons in Hk as [->|Hk]);
    [..|by apply elem_of_nil in Hk].
  all: walk_touches ltac:(first [exact I | not_among]).
Qed.

(** [initialize] writes predictor properties only, and for
    [GasDFluidStep] also [converged] and [omega]. *)
Lemma initialize_writes_predictors step args i :
  (step, args) ∈ steppers →
  touches i (λ _, True) (.∈ predictor_props ++ [d_converged; d_omega])%list
    (initialize step i).
Proof.
  intros Hin. unfold steppers in Hin.
  repeat (apply elem_of_cons in Hin as [[= -> ->]|Hin]);
    [..|by apply elem_of_nil in Hin].
  all: walk_touches ltac:(first [exact I | by repeat constructor]).
Qed.

Lemma predictor_steppers_are_steppers step args copies :
  (step, args, copies) ∈ predictor_steppers → (step, args) ∈ steppers.
Proof.
  intros Hin. unfold predictor_steppers in Hin.
  repeat (apply elem_of_cons in Hin as [[= -> -> ->]|Hin]);
    [..|by apply elem_of_nil in Hin].
  all: unfold steppers; repeat constructor.
Qed.

Lemma progress_spares_predictors step args s s' p :
  (step, args) ∈ steppers → progress step s s' →
  p ∈ predictor_props → s' !! p = s !! p.
Proof.
  intros Hin Hpr Hp.
  destruct Hpr as [stage j dt s s' Hstage Hrun|a arr s Ha].
  - pose proof (stages_spare_predictors _ _ _ j dt Hin Hstage) as Ht.
    apply (touches_frame j _ _ _ _ _ Ht Hrun). by intros Hnot.
  - apply lookup_insert_ne. intros ->. revert Hp.
    unfold acceleration_props in Ha.
    repeat (apply elem_of_cons in Ha as [->|Ha]);
      [..|by apply elem_of_nil in Ha]; not_among.
Qed.

Lemma rtc_progress_spares_predictors step args s s' p :
  (step, args) ∈ steppers → rtc (progress step) s s' →
  p ∈ predictor_props → s' !! p = s !! p.
Proof.
  intros Hin Hrtc Hp. induction Hrtc as [|s s1 s2 Hpr _ IH]; [done|].
  rewrite IH. eauto using progress_spares_predictors.
Qed.

Lemma copies_are_predictors step args copies p0 p :
  (step, args, copies) ∈ predictor_steppers → (p0, p) ∈ copies →
  p0 ∈ predictor_props.
Proof.
  intros Hin Hp. unfold predictor_steppers in Hin.
  repeat (apply elem_of_cons in Hin as [[= -> -> ->]|Hin]);
    [..|by apply elem_of_nil in Hin].
  all: cbv [WCSPH_copies SolidMech_copies GasDFluid_copies RigidBody_copies
            app] in Hp.
  all: repeat (apply elem_of_cons in Hp as [[= -> ->]|Hp]);
    [..|by apply elem_of_nil in Hp].
  all: unfold predictor_props; by repeat constructor.
Qed.
End Frames.

(** After [initialize], each predictor property holds the current
    value of the property it copies. *)
Ltac initialize_copies step Hb :=
  let Hs := fresh "Hs" in let HP := fresh "HP" in
  let s1 := fresh "s1" in let Hrun := fresh "Hrun" in
  let Hs1 := fresh "Hs1" in
  let p0 := fresh "p0" in let p := fresh "p" in let Hp := fresh "Hp" in
  cbv [Euler_args WCSPH_args SolidMech_args TransportVelocity_args
       AdamiVerlet_args GasDFluid_args RigidBody_args
       VerletSymplecticWCSPH_args app] in Hb;
  name_bound Hb Hs HP;
  lazymatch goal with
  | Hx : agree ?s ?i _ |- ∃ s1, ?k ?s = Some s1 ∧ _ =>
      run_from k s i s1 Hrun Hs1;
      exists s1; split; [exact Hrun|];
      intros p0 p Hp;
      cbv [WCSPH_copies SolidMech_copies GasDFluid_copies RigidBody_copies
           app] in Hp;
      repeat (apply elem_of_cons in Hp as [[= -> ->]|Hp]);
      [..|by apply elem_of_nil in Hp];
      (erewrite (agree_get _ _ _ _ _ Hs1) by reflexivity);
      (erewrite (agree_get _ _ _ _ _ Hs) by reflexivity);
      reflexivity
  end.

Section Predictors.
Context {F : Type} `{!Number F}.

Lemma initialize_takes_copies step args copies (s : gmap string (list F)) i :
  (step, args, copies) ∈ predictor_steppers →
  (∀ p, p ∈ args → is_Some (load p i s)) →
  ∃ s1, initialize step i s = Some s1 ∧
    ∀ p0 p, (p0, p) ∈ copies → load p0 i s1 = load p i s.
Proof.
  intros Hin Hb.
  assert (∀ p, p ∈ args → ∃ v, load p i s = Some v ∧ True) as Hb'.
  { intros p [v Hv]%Hb. by exists v. }
  clear Hb. unfold predictor_steppers in Hin.
  repeat (apply elem_of_cons in Hin as [[= -> -> ->]|Hin]);
    [..|by apply elem_of_nil in Hin].
  - initialize_copies (WCSPHStep (F:=F)) Hb'.
  - initialize_copies (WCSPHTVDRK3Step (F:=F)) Hb'.
  - initialize_copies (SolidMechStep (F:=F)) Hb'.
  - initialize_copies (GasDFluidStep (F:=F)) Hb'.
  - initialize_copies (TwoStageRigidBodyStep (F:=F)) Hb'.
  - initialize_copies (OneStageRigidBodyStep (F:=F)) Hb'.
Qed.

(** C5. For every stepper whose [initialize] copies the current
    state into predictor properties, [initialize] at a particle
    writes into each predictor property the current value of the
    property it copies, and whatever follows (any stage of the
    stepper, on any particle, with any [dt], any number of times, the
    evaluator overwriting any acceleration array in between) leaves
    every predictor array as [initialize] left it. *)
Theorem stages_keep_predictors step args copies
    (s : gmap string (list F)) (d_idx : nat) :
  (step, args, copies) ∈ predictor_steppers →
  (∀ p, p ∈ args → is_Some (load p d_idx s)) →
  ∃ s1, initialize step d_idx s = Some s1 ∧
    ∀ s2, rtc (progress step) s1 s2 →
      ∀ p0 p, (p0, p) ∈ copies →
        s2 !! p0 = s1 !! p0 ∧ load p0 d_idx s2 = load p d_idx s.
Proof.
  intros Hin Hb.
  destruct (initialize_takes_copies _ _ _ _ _ Hin Hb) as (s1 & Hrun & Hcp).
  exists s1. split; [done|]. intros s2 Hrtc p0 p Hp.
  assert (s2 !! p0 = s1 !! p0) as Heq.
  { eapply rtc_progress_spares_predictors;
      eauto using predictor_steppers_are_steppers, copies_are_predictors. }
  split; [done|]. rewrite <-(Hcp p0 p Hp). unfold load. by rewrite Heq.
Qed.
End Predictors.

Section Locality.
Context {F : Type} `{!Number F}.

(** C6 (as amended). For every stepper and each of its [initialize]
    and stage kernels, a call at particle index [i] reads and writes
    only elements at index [i], of the properties the stepper's
    methods take as arguments (current, predictor and acceleration
    properties alike):
    - it keeps the shape of the store, every element at another
      index and every other property;
    - its outcome at index [i] is determined by the elements at
      index [i];
    - the array of a property that is not an argument can be
      replaced without any other effect;
    - calls at distinct indices commute;
    - a stage writes no predictor property, and [initialize] writes
      predictor properties only (for [GasDFluidStep] also
      [converged] and [omega]). *)
Theorem kernels_touch_one_particle step args k (i : nat) (dt : F) :
  (step, args) ∈ steppers → k ∈ kernels step →
  (∀ s s', k i dt s = Some s' →
     shape s' = shape s ∧
     (∀ p j, j ≠ i → load p j s' = load p j s) ∧
     (∀ p, p ∉ args → s' !! p = s !! p)) ∧
  (∀ s1 s2, (∀ p, load p i s1 = load p i s2) →
     option_Forall2 (λ s1' s2', ∀ p, load p i s1' = load p i s2')
       (k i dt s1) (k i dt s2)) ∧
  (∀ p r s, p ∉ args → k i dt (<[p := r]> s) = insert p r <$> k i dt s) ∧
  (∀ j dt', i ≠ j → commute (k i dt) (k j dt')) ∧
  (k ∈ stages step →
     ∀ s s' p, k i dt s = Some s' → p ∈ predictor_props →
       s' !! p = s !! p) ∧
  (∀ s s' p, initialize step i s = Some s' →
     p ∉ predictor_props → p ∉ [d_converged; d_omega] →
     s' !! p = s !! p).
Proof.
  intros Hin Hk.
  assert (∀ j dt', touches j (.∈ args) (.∈ args) (k j dt')) as Ht.
  { intros j dt'. pose proof (steppers_touch step args j dt' Hin) as Hall.
    rewrite Forall_forall in Hall. by apply Hall. }
  split_and!.
  - intros s s' Hrun.
    destruct (touches_frame i _ _ _ _ _ (Ht i dt) Hrun) as (? & ? & ?).
    split_and!; auto.
  - intros s1 s2. apply (touches_local i _ _ _ _ _ (Ht i dt)).
  - intros p r s Hp. by apply (touches_insert i _ _ _ _ _ _ (Ht i dt)).
  - intros j dt' Hij. by apply (touches_commute i j _ _ _ _ _ _ (Ht i dt) (Ht j dt')).
  - intros Hstage s s' p Hrun Hp.
    pose proof (stages_spare_predictors _ _ _ i dt Hin Hstage) as Hsp.
    apply (touches_frame i _ _ _ _ _ Hsp Hrun). by intros Hnot.
  - intros s s' p Hrun Hp Hp'.
    pose proof (initialize_writes_predictors _ _ i Hin) as Hinit.
    apply (touches_frame i _ _ _ _ _ Hinit Hrun).
    intros [?|?]%elem_of_app; auto.
Qed.
End Locality.

Import Binary64.

(** Against C6 as first stated, the kernels do read current properties
    and write predictor ones: [WCSPHStep.initialize] on a particle with [x = 1.0], [x0 = 0.0]
    leaves [x0 = 1.0], a predictor property written; and
    [EulerStep.stage1] with [dt = 1.0] on two particles that differ
    only in the current velocity [u] ([1.0] against [2.0], with
    [x = 0.0] and no acceleration) leaves [x = 1.0] for one and
    [x = 2.0] for the other, a current property read. *)
Lemma kernels_read_current_write_predictor :
  (∃ s',
     WCSPHStep_initialize 0
       (one_particle
          [(d_x0, b64 0 0); (d_y0, b64 0 0); (d_z0, b64 0 0);
           (d_x, b64 1 0); (d_y, b64 0 0); (d_z, b64 0 0);
           (d_u0, b64 0 0); (d_v0, b64 0 0); (d_w0, b64 0 0);
           (d_u, b64 0 0); (d_v, b64 0 0); (d_w, b64 0 0);
           (d_rho0, b64 0 0); (d_rho, b64 0 0)]) = Some s' ∧
     load d_x0 0 s' = Some (b64 1 0)) ∧
  (∃ s',
     EulerStep_stage1 0 (b64 1 0)
       (one_particle
          [(d_u, b64 1 0); (d_v, b64 0 0); (d_w, b64 0 0);
           (d_au, b64 0 0); (d_av, b64 0 0); (d_aw, b64 0 0);
           (d_x, b64 0 0); (d_y, b64 0 0); (d_z, b64 0 0);
           (d_rho, b64 1 0); (d_arho, b64 0 0)]) = Some s' ∧
     load d_x 0 s' = Some (b64 1 0)) ∧
  (∃ s',
     EulerStep_stage1 0 (b64 1 0)
       (one_particle
          [(d_u, b64 2 0); (d_v, b64 0 0); (d_w, b64 0 0);
           (d_au, b64 0 0); (d_av, b64 0 0); (d_aw, b64 0 0);
           (d_x, b64 0 0); (d_y, b64 0 0); (d_z, b64 0 0);
           (d_rho, b64 1 0); (d_arho, b64 0 0)]) = Some s' ∧
     load d_x 0 s' = Some (b64 2 0)).
Proof.
  split_and!; apply run_then_load; vm_compute; reflexivity.
Qed.

(** * Persistence round trip *)

Section RoundTrip.
Context {F : Type}.
Import solver_utils.

Lemma load_dump_output (pa : ParticleArray F) (solver_data : gmap string F) :
  ∃ data pa1,
    load (dump [pa] solver_data) = inr data ∧
    loaded_arrays data !! name pa = Some pa1 ∧
    output_property_arrays pa1 = output_property_arrays pa.
Proof.
  eexists _, _. split_and!; [reflexivity| |].
  - simpl. rewrite map_lookup_imap, lookup_insert_eq. reflexivity.
  - reflexivity.
Qed.

(** C9. Dumping a particle group whose [output_property_arrays] was
    set to [['x', 'y', 'u']] and loading the dump gives a group whose
    [output_property_arrays] is exactly [['x', 'y', 'u']]: the same
    names in the same order, none added, none dropped. *)
Theorem output_array_information_is_saved (pa : ParticleArray F)
    (solver_data : gmap string F) :
  let output_arrays := [d_x; d_y; d_u] in
  let pa' := set_output_arrays pa output_arrays in
  output_property_arrays pa' = output_arrays ∧
  ∃ data pa1,
    load (dump [pa'] solver_data) = inr data ∧
    loaded_arrays data !! name pa = Some pa1 ∧
    output_property_arrays pa1 = output_arrays.
Proof.
  intros output_arrays pa'. split; [done|].
  exact (load_dump_output pa' solver_data).
Qed.
End RoundTrip.

(** * The statements on sample particles *)

Import Exact Binary64.

(** Every property of a concrete list is bound in a concrete store. *)
Ltac bound_concrete :=
  let p := fresh "p" in let Hp := fresh "Hp" in
  intros p Hp;
  repeat (apply elem_of_cons in Hp as [->|Hp]);
  [..|by apply elem_of_nil in Hp].

Lemma EulerStep_stage1_formula_witness :
  let s := one_particle Sample.euler in
  agree s 0 Sample.euler ∧
  (∃ s', EulerStep_stage1 0 (b64 1 (-3)) s = Some s' ∧
     agree s' 0
       [(d_u, b64 17 (-4)); (d_v, b64 17 (-3)); (d_w, b64 3 0);
        (d_x, b64 17 (-7)); (d_y, b64 17 (-6)); (d_z, b64 3 (-3));
        (d_rho, b64 2001 (-1))]) ∧
  EulerStep_initialize s = Some s.
Proof.
  intros s. assert (agree s 0 Sample.euler) as Hs by repeat constructor.
  split; [exact Hs|].
  exact (EulerStep_stage1_formula s 0 (b64 1 (-3)) _ _ _ _ _ _ _ _ _ _ _ Hs).
Defined.

Lemma WCSPHTVDRK3Step_constant_rhs_witness :
  let s := one_particle Sample.tvdrk3 in
  let dt := Q2Qc (1 # 10) in
  agree s 0 Sample.tvdrk3 ∧
  ∃ s', timestep WCSPHTVDRK3Step 0 dt s = Some s' ∧
    agree s' 0
      [(d_u, Q2Qc (1 # 3) + dt * Q2Qc 5); (d_v, Q2Qc 0 + dt * Q2Qc 0);
       (d_w, Q2Qc 0 + dt * Q2Qc 0);
       (d_x, Q2Qc 7 + dt * Q2Qc 2); (d_y, Q2Qc 0 + dt * Q2Qc 0);
       (d_z, Q2Qc 0 + dt * Q2Qc 0);
       (d_rho, Q2Qc 1000 + dt * Q2Qc 9)]%Qc.
Proof.
  intros s dt. assert (agree s 0 Sample.tvdrk3) as Hs by repeat constructor.
  split; [exact Hs|].
  exact (WCSPHTVDRK3Step_constant_rhs s 0 dt
           _ _ _ _ _ _ _ _ _ _ _ _ _ _ _ _ _ _ _ _ _ Hs).
Defined.

Lemma predictor_corrector_is_full_step_witness :
  let s := one_particle (Sample.wcsph ++ Sample.solid)%list in
  let dt := b64 1 (-3) in
  agree s 0 Sample.wcsph ∧
  agree s 0 (Sample.wcsph ++ Sample.solid)%list ∧
  (∃ s', timestep WCSPHStep 0 dt s = Some s' ∧
     load d_x 0 s' = Some (add (b64 1 0) (mul dt (b64 1 (-1)))) ∧
     seq (WCSPHStep_initialize 0) (WCSPHStep_stage2 0 dt) s = Some s') ∧
  (∃ s', timestep SolidMechStep 0 dt s = Some s' ∧
     load d_s00 0 s' = Some (add (b64 1 0) (mul dt (b64 1 0))) ∧
     seq (SolidMechStep_initialize 0) (SolidMechStep_stage2 0 dt) s = Some s').
Proof.
  intros s dt.
  assert (agree s 0 Sample.wcsph) as Hw by repeat constructor.
  assert (agree s 0 (Sample.wcsph ++ Sample.solid)%list) as Hws
    by repeat constructor.
  split_and!; [exact Hw|exact Hws|..].
  - destruct (proj1 (predictor_corrector_is_full_step s 0 dt
        _ _ _ _ _ _ _ _ _ _ _ _ _ _ _ _ _ _ _ _ _
        (b64 1 0) (b64 9 0) (b64 2 0)
        (b64 1 0) (b64 2 0) (b64 3 0) (b64 4 0) (b64 5 0) (b64 6 0)
        (b64 9 0) (b64 9 0) (b64 9 0) (b64 9 0) (b64 9 0) (b64 9 0)
        (b64 1 0) (b64 1 0) (b64 1 0) (b64 1 0) (b64 1 0) (b64 1 0)) Hw)
      as (s' & Hrun & Hs' & Hskip).
    exists s'. split_and!; [exact Hrun| |exact Hskip].
    by apply (agree_get _ _ _ _ _ Hs').
  - destruct (proj2 (predictor_corrector_is_full_step s 0 dt
        _ _ _ _ _ _ _ _ _ _ _ _ _ _ _ _ _ _ _ _ _
        _ _ _ _ _ _ _ _ _ _ _ _ _ _ _ _ _ _ _ _ _) Hws)
      as (s' & Hrun & Hs' & Hskip).
    exists s'. split_and!; [exact Hrun| |exact Hskip].
    by apply (agree_get _ _ _ _ _ Hs').
Defined.

Lemma rigid_body_constant_acceleration_witness :
  let s := one_particle Sample.rigid in
  let dt := Q2Qc (1 # 10) in
  TwoStageRigidBodyStep (F:=Qc)
    ∈ [TwoStageRigidBodyStep; OneStageRigidBodyStep] ∧
  agree s 0 Sample.rigid ∧
  ∃ s', timestep TwoStageRigidBodyStep 0 dt s = Some s' ∧
    load d_z 0 s' = Some (Q2Qc (355 # 100)) ∧
    load d_w 0 s' = Some (Q2Qc 5).
Proof.
  intros s dt.
  assert (TwoStageRigidBodyStep (F:=Qc)
            ∈ [TwoStageRigidBodyStep; OneStageRigidBodyStep]) as Hin
    by repeat constructor.
  assert (agree s 0 Sample.rigid) as Hs by repeat constructor.
  split_and!; [exact Hin|exact Hs|].
  destruct (rigid_body_constant_acceleration s 0 dt
              _ _ _ _ _ _ _ _ _ _ _ _ _ _ _ _ Hin Hs) as (s' & Hrun & Hs').
  exists s'. split_and!; [exact Hrun|..].
  - rewrite (agree_get _ _ _ d_z _ Hs' eq_refl). f_equal; by apply Qc_is_canon.
  - rewrite (agree_get _ _ _ d_w _ Hs' eq_refl). f_equal; by apply Qc_is_canon.
Defined.


Lemma agree_evaluate {F} `{!Number F} (s : gmap string (list F)) i env a arr v :
  agree s i env → arr !! i = Some v →
  agree (<[a := arr]> s) i (env_set a v env).
Proof.
  intros Hs Hv. induction Hs as [|[q w] env Hq _ IH]; simpl; constructor; [|done].
  simpl in *. unfold load. destruct (String.eqb_spec a q) as [->|Hne].
  - by rewrite lookup_insert_eq.
  - by rewrite lookup_insert_ne.
Qed.

Lemma stages_keep_predictors_witness :
  let s := one_particle Sample.wcsph in
  let dt := b64 1 (-3) in
  (WCSPHStep, WCSPH_args, WCSPH_copies) ∈ predictor_steppers ∧
  (∀ p, p ∈ WCSPH_args → is_Some (load p 0 s)) ∧
  ∃ s1 s2 s4,
    initialize WCSPHStep 0 s = Some s1 ∧
    WCSPHStep_stage1 0 dt s1 = Some s2 ∧
    WCSPHStep_stage2 0 dt (<[d_au := [b64 8 0]]> s2) = Some s4 ∧
    rtc (progress WCSPHStep) s1 s4 ∧
    s4 !! d_x0 = s1 !! d_x0 ∧
    load d_x0 0 s4 = Some (b64 1 0) ∧
    load d_u 0 s4 = Some (b64 3 (-1)).
Proof.
  intros s dt.
  assert ((WCSPHStep (F:=float), WCSPH_args, WCSPH_copies) ∈ predictor_steppers)
    as Hin by (unfold predictor_steppers; repeat constructor).
  assert (agree s 0 Sample.wcsph) as Hs by repeat constructor.
  assert (∀ p, p ∈ WCSPH_args → is_Some (load p 0 s)) as Hb.
  { unfold WCSPH_args. bound_concrete.
    all: eexists; by apply (agree_get _ _ _ _ _ Hs). }
  split_and!; [exact Hin|exact Hb|].
  destruct (stages_keep_predictors WCSPHStep WCSPH_args WCSPH_copies s 0 Hin Hb)
    as (s1 & Hrun1 & Hkeep).
  unfold Sample.wcsph in Hs. clearbody s.
  run_from (initialize (WCSPHStep (F:=float)) 0) s 0 s1' Hrun1' Hs1.
  assert (s1' = s1) as -> by congruence. clear Hrun1'.
  run_from (WCSPHStep_stage1 (F:=float) 0 dt) s1 0 s2 Hrun2 Hs2.
  pose proof (agree_evaluate s2 0 _ d_au [b64 8 0] (b64 8 0) Hs2 eq_refl) as Hs3.
  cbn [env_set String.eqb Ascii.eqb Bool.eqb] in Hs3.
  remember (<[d_au := [b64 8 0]]> s2) as s3 eqn:Hevaluate.
  run_from (WCSPHStep_stage2 (F:=float) 0 dt) s3 0 s4 Hrun4 Hs4.
  subst s3.
  assert (rtc (progress WCSPHStep) s1 s4) as Hrtc.
  { eapply rtc_l; [exact (progress_stage WCSPHStep WCSPHStep_stage1 0 dt s1 s2
                            ltac:(repeat constructor) Hrun2)|].
    eapply rtc_l; [exact (progress_evaluate WCSPHStep d_au [b64 8 0] s2
                            ltac:(repeat constructor))|].
    eapply rtc_l; [exact (progress_stage WCSPHStep WCSPHStep_stage2 0 dt _ s4
                            ltac:(repeat constructor) Hrun4)|].
    apply rtc_refl. }
  destruct (Hkeep s4 Hrtc d_x0 d_x ltac:(repeat constructor)) as [Harr Hval].
  exists s1, s2, s4.
  split_and!; [exact Hrun1|exact Hrun2|exact Hrun4|exact Hrtc|exact Harr| |].
  - rewrite Hval. by apply (agree_get _ _ _ _ _ Hs).
  - by apply (agree_get _ _ _ _ _ Hs4).
Defined.

Lemma kernels_touch_one_particle_witness :
  let dt := b64 1 (-3) in
  (EulerStep, Euler_args) ∈ steppers ∧
  EulerStep_stage1 ∈ kernels EulerStep ∧
  commute (EulerStep_stage1 (F:=float) 0 dt) (EulerStep_stage1 1 dt) ∧
  (∀ s s' p, EulerStep_stage1 (F:=float) 0 dt s = Some s' →
     p ∈ predictor_props → s' !! p = s !! p).
Proof.
  intros dt.
  assert ((EulerStep (F:=float), Euler_args) ∈ steppers) as Hin
    by (unfold steppers; repeat constructor).
  assert (EulerStep_stage1 (F:=float) ∈ kernels EulerStep) as Hk
    by (unfold kernels; simpl; repeat constructor).
  split_and!; [exact Hin|exact Hk|..].
  - destruct (kernels_touch_one_particle EulerStep Euler_args EulerStep_stage1
                0 dt Hin Hk) as (_ & _ & _ & Hcomm & _).
    by apply Hcomm.
  - destruct (kernels_touch_one_particle EulerStep Euler_args EulerStep_stage1
                0 dt Hin Hk) as (_ & _ & _ & _ & Hpred & _).
    apply Hpred. simpl. repeat constructor.
Defined.

Lemma TransportVelocityStep_stage1_advection_witness :
  let s := one_particle Sample.transport in
  let sq : gmap string (list Qc) :=
    one_particle
      [(d_u, Q2Qc 1); (d_v, Q2Qc 2); (d_au, Q2Qc 3); (d_av, Q2Qc 4);
       (d_uhat, Q2Qc 5); (d_auhat, Q2Qc 6); (d_vhat, Q2Qc 7);
       (d_avhat, Q2Qc 8); (d_x, Q2Qc 0); (d_y, Q2Qc 0)] in
  agree s 0 Sample.transport ∧
  Forall (λ a, is_finite a = true)
    [b64 1 0; b64 2 0; b64 3 0; b64 4 0; b64 6 0; b64 8 0] ∧
  (∃ s', TransportVelocityStep_stage1 0 (b64 1 0) s = Some s' ∧
     load d_u 0 s' = Some (b64 5 (-1)) ∧
     load d_uhat 0 s' = Some (b64 11 (-1)) ∧
     load d_x 0 s' = Some (b64 11 (-1))) ∧
  (∃ s', TransportVelocityStep_stage1 0 f0 sq = Some s' ∧
     load d_uhat 0 s' = Some (Q2Qc 1) ∧ load d_u 0 s' = Some (Q2Qc 1)) ∧
  (∃ s' uhat', TransportVelocityStep_stage1 0 f0 s = Some s' ∧
     load d_uhat 0 s' = Some uhat' ∧ numerically_equal uhat' (b64 1 0)).
Proof.
  intros s sq.
  assert (agree s 0 Sample.transport) as Hs by repeat constructor.
  assert (Forall (λ a, is_finite a = true)
            [b64 1 0; b64 2 0; b64 3 0; b64 4 0; b64 6 0; b64 8 0]) as Hfin
    by repeat constructor.
  destruct TransportVelocityStep_stage1_advection as (Hrun & Hexact & Hb64).
  split_and!; [exact Hs|exact Hfin|..].
  - destruct (Hrun float _ s 0 (b64 1 0) _ _ _ _ _ _ _ _ _ _ Hs)
      as (s' & Hrun' & Hs' & _).
    exists s'. split_and!; [exact Hrun'|by apply (agree_get _ _ _ _ _ Hs')..].
  - assert (agree sq 0
      [(d_u, Q2Qc 1); (d_v, Q2Qc 2); (d_au, Q2Qc 3); (d_av, Q2Qc 4);
       (d_uhat, Q2Qc 5); (d_auhat, Q2Qc 6); (d_vhat, Q2Qc 7);
       (d_avhat, Q2Qc 8); (d_x, Q2Qc 0); (d_y, Q2Qc 0)]) as Hsq
      by repeat constructor.
    destruct (Hexact sq 0 _ _ _ _ _ _ _ _ _ _ Hsq) as (s' & Hrun' & Hs').
    exists s'. split_and!; [exact Hrun'|by apply (agree_get _ _ _ _ _ Hs')..].
  - destruct (Hb64 s 0 _ _ _ _ _ _ _ _ _ _ Hs Hfin)
      as (s' & u' & v' & uhat' & vhat' & x' & y' & Hrun' & Hs' & Heq).
    exists s', uhat'. split_and!; [exact Hrun'| |].
    + by apply (agree_get _ _ _ _ _ Hs').
    + apply Forall2_cons in Heq as [_ Heq].
      apply Forall2_cons in Heq as [_ Heq].
      by apply Forall2_cons in Heq as [Heq _].
Defined.

(** The zero step of C10 does move the velocity when a rate is not
    finite: in binary64, [TransportVelocityStep.stage1] with
    [dt = 0.0], [u = 1.0] and [au = inf] leaves [u] a NaN (and with it
    [uhat] and [x]). *)
Lemma TransportVelocityStep_stage1_moves_velocity :
  let s :=
    one_particle
      [(d_u, b64 1 0); (d_v, b64 0 0); (d_au, inf); (d_av, b64 0 0);
       (d_uhat, b64 0 0); (d_auhat, b64 0 0); (d_vhat, b64 0 0);
       (d_avhat, b64 0 0); (d_x, b64 0 0); (d_y, b64 0 0)] in
  TransportVelocityStep_stage1 0 f0 s ≫= load d_u 0 = Some nan ∧
  TransportVelocityStep_stage1 0 f0 s ≫= load d_uhat 0 = Some nan ∧
  TransportVelocityStep_stage1 0 f0 s ≫= load d_x 0 = Some nan ∧
  load d_u 0 s = Some (b64 1 0) ∧ load d_x 0 s = Some (b64 0 0).
Proof. split_and!; vm_compute; reflexivity. Qed.


(** * When a kernel raises *)

Section DemandsFacts.
Context {F : Type} `{!Number F}.
Implicit Types (s : gmap string (list F)) (p q : string) (i j : nat).

Lemma load_is_Some_shape s p i :
  is_Some (load p i s) ↔ ∃ n, shape s !! p = Some n ∧ i < n.
Proof.
  unfold load, shape. rewrite lookup_fmap.
  destruct (s !! p) as [a|]; simpl.
  - rewrite lookup_lt_is_Some. split; [by eauto|]. by intros (n & [= <-] & ?).
  - split; [by intros [? ?]|]. by intros (n & ? & _).
Qed.

Lemma consults_is_Some i p (e : Expr) s :
  consults i p e → is_Some (e s) → is_Some (load p i s).
Proof.
  induction 1 as [|e1 e2 _ IH|e1 e2 _ IH|e1 e2 _ IH|e1 e2 _ IH]; [done|..];
    unfold eadd, emul; intros [v Hv]; apply IH;
    destruct (e1 s), (e2 s); simplify_eq/=; by eexists.
Qed.

(** A kernel that returns found every element it demands. *)
Lemma demands_is_Some i p (c : Stmt) s :
  demands i p c → is_Some (c s) → is_Some (load p i s).
Proof.
  intros Hd. revert s.
  induction Hd as [e|q e He|c1 c2 _ IH|c1 c2 Ht _ IH]; intros s [s' Hs'].
  - unfold assign in Hs'. destruct (e s) as [v|]; simpl in Hs'; [|done].
    apply (proj1 (store_Some _ _ _ v)). by eexists.
  - apply (consults_is_Some i p e); [done|].
    unfold assign in Hs'. destruct (e s); [by eexists|done].
  - apply IH. unfold seq in Hs'. destruct (c1 s); [by eexists|done].
  - unfold seq in Hs'. destruct (c1 s) as [s1|] eqn:H1; simpl in Hs'; [|done].
    destruct (touches_frame _ _ _ _ _ _ Ht H1) as (Hsh & _ & _).
    apply load_is_Some_shape. rewrite <-Hsh. apply load_is_Some_shape.
    apply IH. by eexists.
Qed.
End DemandsFacts.

(** Find where a concrete kernel uses a property. *)
Ltac find_consult :=
  first
    [ apply consults_load
    | apply consults_add_l; find_consult
    | apply consults_add_r; find_consult
    | apply consults_mul_l; find_consult
    | apply consults_mul_r; find_consult ].

Ltac find_demand :=
  first
    [ apply demands_target
    | apply demands_rhs; find_consult
    | apply demands_seq_l; find_demand
    | apply demands_seq_r;
      [ repeat first
          [ apply touches_skip | apply touches_seq
          | apply touches_assign; [exact I|]
          | apply reads_const | apply reads_load; exact I
          | apply reads_add | apply reads_mul ]
      | find_demand ] ].

(** Every property of a concrete list is demanded by a concrete kernel. *)
Ltac all_demanded :=
  let p := fresh "p" in let Hp := fresh "Hp" in
  intros p Hp;
  cbv [Euler_args WCSPH_args SolidMech_args TransportVelocity_args
       AdamiVerlet_args GasDFluid_args RigidBody_args
       VerletSymplecticWCSPH_args WCSPH_initialize_args
       SolidMech_initialize_args GasDFluid_initialize_args
       GasDFluid_stage_args RigidBody_initialize_args
       TransportVelocity_stage2_args app] in Hp;
  repeat (apply elem_of_cons in Hp as [->|Hp]);
  [..|by apply elem_of_nil in Hp];
  unfold_kernels; unfold iadd; find_demand.

Section Raises.
Context {F : Type} `{!Number F}.

Lemma timestep_demands step args i (dt : F) p :
  (step, args) ∈ steppers → p ∈ args → demands i p (timestep step i dt).
Proof.
  intros Hin. revert p. unfold steppers in Hin.
  repeat (apply elem_of_cons in Hin as [[= -> ->]|Hin]);
    [..|by apply elem_of_nil in Hin].
  all: all_demanded.
Qed.
End Raises.

(** From "every property of the list is bound" to an [agree] with one
    variable per property. *)
Ltac name_args Hb Hs :=
  let HP := fresh "HP" in
  let Hb' := fresh "Hb" in
  lazymatch type of Hb with
  | ∀ p, p ∈ ?args → is_Some (load p ?i ?s) =>
      assert (∀ p, p ∈ args → ∃ v, load p i s = Some v ∧ True) as Hb'
        by (let p := fresh in let v := fresh in let Hv := fresh in
            intros p [v Hv]%Hb; by exists v);
      cbv [Euler_args WCSPH_args SolidMech_args TransportVelocity_args
           AdamiVerlet_args GasDFluid_args RigidBody_args
           VerletSymplecticWCSPH_args WCSPH_initialize_args
           SolidMech_initialize_args GasDFluid_initialize_args
           GasDFluid_stage_args RigidBody_initialize_args
           TransportVelocity_stage2_args app] in Hb';
      name_bound Hb' Hs HP
  end.

Ltac runs_when_bound c Hb :=
  let Hs := fresh "Hs" in
  let s' := fresh "s'" in let Hrun := fresh "Hrun" in let Hs' := fresh "Hs'" in
  name_args Hb Hs;
  lazymatch goal with
  | Hx : agree ?s ?i _ |- is_Some _ =>
      run_from c s i s' Hrun Hs'; by exists s'
  end.

Section RaisesIff.
Context {F : Type} `{!Number F}.

Lemma timestep_runs step args i (dt : F) (s : gmap string (list F)) :
  (step, args) ∈ steppers →
  (∀ p, p ∈ args → is_Some (load p i s)) → is_Some (timestep step i dt s).
Proof.
  intros Hin Hb. unfold steppers in Hin.
  repeat (apply elem_of_cons in Hin as [[= -> ->]|Hin]);
    [..|by apply elem_of_nil in Hin].
  - runs_when_bound (timestep (EulerStep (F:=F)) i dt) Hb.
  - runs_when_bound (timestep (WCSPHStep (F:=F)) i dt) Hb.
  - runs_when_bound (timestep (WCSPHTVDRK3Step (F:=F)) i dt) Hb.
  - runs_when_bound (timestep (SolidMechStep (F:=F)) i dt) Hb.
  - runs_when_bound (timestep (TransportVelocityStep (F:=F)) i dt) Hb.
  - runs_when_bound (timestep (AdamiVerletStep (F:=F)) i dt) Hb.
  - runs_when_bound (timestep (GasDFluidStep (F:=F)) i dt) Hb.
  - runs_when_bound (timestep (TwoStageRigidBodyStep (F:=F)) i dt) Hb.
  - runs_when_bound (timestep (OneStageRigidBodyStep (F:=F)) i dt) Hb.
  - runs_when_bound (timestep (VerletSymplecticWCSPHStep (F:=F)) i dt) Hb.
Qed.

Lemma timestep_bound step args i (dt : F) (s : gmap string (list F)) :
  (step, args) ∈ steppers →
  is_Some (timestep step i dt s) → ∀ p, p ∈ args → is_Some (load p i s).
Proof.
  intros Hin Hrun p Hp.
  eapply demands_is_Some; [by eapply timestep_demands|done].
Qed.

(** X1. For each of the ten steppers, a timestep on particle [d_idx]
    ([initialize], then every stage) returns normally exactly when
    every property among the stepper's arguments exists and has an
    element at [d_idx]; a missing property or an index out of range
    makes it raise, whatever [dt] and the values are. *)
Theorem timestep_returns_iff_bound step args (d_idx : nat) (dt : F)
    (s : gmap string (list F)) :
  (step, args) ∈ steppers →
  (is_Some (timestep step d_idx dt s) ↔
   ∀ p, p ∈ args → ∃ a, s !! p = Some a ∧ d_idx < length a).
Proof.
  intros Hin.
  assert (∀ p, is_Some (load p d_idx s) ↔
               ∃ a, s !! p = Some a ∧ d_idx < length a) as Hload.
  { intros p. unfold load. destruct (s !! p) as [a|]; simpl.
    - rewrite lookup_lt_is_Some. split; [by eauto|].
      by intros (? & [= <-] & ?).
    - split; [by intros [? ?]|]. by intros (? & ? & _). }
  split.
  - intros Hrun p Hp. apply Hload. by eapply timestep_bound.
  - intros Hb. eapply timestep_runs; [done|].
    intros p Hp. apply Hload. by apply Hb.
Qed.

Lemma kernels_spare_accelerations step args k i (dt : F) :
  (step, args) ∈ steppers → k ∈ kernels step →
  touches i (λ _, True) (.∉ acceleration_props) (k i dt).
Proof.
  intros Hin Hk. unfold steppers in Hin.
  repeat (apply elem_of_cons in Hin as [[= -> ->]|Hin]);
    [..|by apply elem_of_nil in Hin].
  all: unfold kernels in Hk; simpl in Hk;
    repeat (apply elem_of_cons in Hk as [->|Hk]);
    [..|by apply elem_of_nil in Hk].
  all: walk_touches ltac:(first [exact I | not_among]).
Qed.

(** X2. No [initialize] and no stage of any stepper writes an
    acceleration or rate array ([au], [av], [aw], [ax], [ay], [az],
    [arho], [ae], [as00] .. [as22], [auhat], [avhat]): what the
    evaluator left there is there after the call, for every
    particle. *)
Theorem kernels_keep_accelerations step args k (d_idx : nat) (dt : F)
    (s s' : gmap string (list F)) a :
  (step, args) ∈ steppers → k ∈ kernels step →
  k d_idx dt s = Some s' → a ∈ acceleration_props → s' !! a = s !! a.
Proof.
  intros Hin Hk Hrun Ha.
  pose proof (kernels_spare_accelerations _ _ _ d_idx dt Hin Hk) as Ht.
  apply (touches_frame d_idx _ _ _ _ _ Ht Hrun). by intros Hnot.
Qed.
End RaisesIff.

(** * How the kernels compose *)

Section Compose.
Context {F : Type} `{!Number F}.

(** Two kernels that need the same properties and agree whenever
    both have them agree on every store. *)
Lemma equal_when_bound (c1 c2 : Stmt (F:=F)) s (P : Prop) :
  (is_Some (c1 s) → P) → (is_Some (c2 s) → P) →
  (P → ∃ s', c1 s = Some s' ∧ c2 s = Some s') →
  c1 s = c2 s.
Proof.
  intros H1 H2 HP.
  destruct (c1 s) as [s1|] eqn:E1.
  - destruct (HP (H1 ltac:(by eexists))) as (s' & ? & ->). congruence.
  - destruct (c2 s) as [s2|] eqn:E2; [|done].
    destruct (HP (H2 ltac:(by eexists))) as (s' & ? & _). congruence.
Qed.
End Compose.

(** One predictor kernel run twice. *)
Ltac idempotent_case k kargs i dt s :=
  let Hb := fresh "Hb" in let Hs := fresh "Hs" in
  let s1 := fresh "s1" in let Hrun1 := fresh "Hrun1" in
  let Hs1 := fresh "Hs1" in
  let s2 := fresh "s2" in let Hrun2 := fresh "Hrun2" in
  let Hs2 := fresh "Hs2" in
  apply (equal_when_bound _ _ s (∀ p, p ∈ kargs → is_Some (load p i s)));
  [ intros Hrun p Hp; apply (demands_is_Some i p (seq (k i dt) (k i dt)));
    [apply demands_seq_l; revert p Hp; all_demanded|exact Hrun]
  | intros Hrun p Hp; apply (demands_is_Some i p (k i dt));
    [revert p Hp; all_demanded|exact Hrun]
  | intros Hb; name_args Hb Hs;
    run_from (k i dt) s i s1 Hrun1 Hs1;
    run_from (k i dt) s1 i s2 Hrun2 Hs2;
    exists s1; split; [|exact Hrun1];
    unfold seq; rewrite Hrun1; simpl; rewrite Hrun2; f_equal;
    symmetry;
    eapply (same_outcome i (.∈ kargs) kargs skip (k i dt) s1 s1 s1 s2);
    [ apply touches_skip
    | cbv [Euler_args WCSPH_args SolidMech_args GasDFluid_args RigidBody_args
           WCSPH_initialize_args SolidMech_initialize_args
           GasDFluid_initialize_args GasDFluid_stage_args
           RigidBody_initialize_args app]; solve_touches
    | reflexivity | exact Hrun2 | exact Hs1 | exact Hs2
    | cbv [Euler_args WCSPH_args SolidMech_args GasDFluid_args RigidBody_args
           WCSPH_initialize_args SolidMech_initialize_args
           GasDFluid_initialize_args GasDFluid_stage_args
           RigidBody_initialize_args app]; covered
    | done | done ] ].

Section Idempotent.
Context {F : Type} `{!Number F}.

(** X3. The kernels that assign from predictor copies and rates
    ([initialize] of the six predictor steppers; both stages of
    [WCSPHStep], [SolidMechStep], [GasDFluidStep] and
    [TwoStageRigidBodyStep]; [stage1] of [WCSPHTVDRK3Step]) are
    idempotent: called twice in a row on the same particle with the
    same [dt] and unchanged rates, they leave the store the first
    call left, and raise if the first call raises. *)
Theorem predictor_kernels_idempotent k kargs (d_idx : nat) (dt : F)
    (s : gmap string (list F)) :
  (k, kargs) ∈ predictor_kernels →
  seq (k d_idx dt) (k d_idx dt) s = k d_idx dt s.
Proof.
  intros Hin. unfold predictor_kernels in Hin.
  repeat (apply elem_of_cons in Hin as [[= -> ->]|Hin]);
    [..|by apply elem_of_nil in Hin].
  - idempotent_case (λ (i : nat) (_ : F), WCSPHStep_initialize (F:=F) i)
      WCSPH_initialize_args d_idx dt s.
  - idempotent_case (WCSPHStep_stage1 (F:=F)) WCSPH_args d_idx dt s.
  - idempotent_case (WCSPHStep_stage2 (F:=F)) WCSPH_args d_idx dt s.
  - idempotent_case (λ (i : nat) (_ : F), WCSPHTVDRK3Step_initialize (F:=F) i)
      WCSPH_initialize_args d_idx dt s.
  - idempotent_case (WCSPHTVDRK3Step_stage1 (F:=F)) WCSPH_args d_idx dt s.
  - idempotent_case (λ (i : nat) (_ : F), SolidMechStep_initialize (F:=F) i)
      SolidMech_initialize_args d_idx dt s.
  - idempotent_case (SolidMechStep_stage1 (F:=F)) SolidMech_args d_idx dt s.
  - idempotent_case (SolidMechStep_stage2 (F:=F)) SolidMech_args d_idx dt s.
  - idempotent_case (λ (i : nat) (_ : F), GasDFluidStep_initialize (F:=F) i)
      GasDFluid_initialize_args d_idx dt s.
  - idempotent_case (GasDFluidStep_stage1 (F:=F)) GasDFluid_stage_args d_idx dt s.
  - idempotent_case (GasDFluidStep_stage2 (F:=F)) GasDFluid_stage_args d_idx dt s.
  - idempotent_case (λ (i : nat) (_ : F), TwoStageRigidBodyStep_initialize (F:=F) i)
      RigidBody_initialize_args d_idx dt s.
  - idempotent_case (TwoStageRigidBodyStep_stage1 (F:=F)) RigidBody_args d_idx dt s.
  - idempotent_case (TwoStageRigidBodyStep_stage2 (F:=F)) RigidBody_args d_idx dt s.
  - idempotent_case (λ (i : nat) (_ : F), OneStageRigidBodyStep_initialize (F:=F) i)
      RigidBody_initialize_args d_idx dt s.
Qed.
End Idempotent.

(** Two concrete kernels over the same argument list. *)
Ltac same_kernels c1 c2 kargs i s :=
  let Hb := fresh "Hb" in let Hs := fresh "Hs" in
  let s1 := fresh "s1" in let Hrun1 := fresh "Hrun1" in
  let Hs1 := fresh "Hs1" in
  let s2 := fresh "s2" in let Hrun2 := fresh "Hrun2" in
  let Hs2 := fresh "Hs2" in
  apply (equal_when_bound c1 c2 s (∀ p, p ∈ kargs → is_Some (load p i s)));
  [ intros Hrun p Hp; apply (demands_is_Some i p c1);
    [revert p Hp; all_demanded|exact Hrun]
  | intros Hrun p Hp; apply (demands_is_Some i p c2);
    [revert p Hp; all_demanded|exact Hrun]
  | intros Hb; name_args Hb Hs;
    run_from c1 s i s1 Hrun1 Hs1;
    run_from c2 s i s2 Hrun2 Hs2;
    exists s1; split; [exact Hrun1|];
    replace s1 with s2; [exact Hrun2|]; symmetry;
    eapply (same_outcome i (.∈ kargs) kargs c1 c2 s s s1 s2);
    [ cbv [Euler_args WCSPH_args SolidMech_args GasDFluid_args RigidBody_args
           app]; solve_touches
    | cbv [Euler_args WCSPH_args SolidMech_args GasDFluid_args RigidBody_args
           app]; solve_touches
    | exact Hrun1 | exact Hrun2 | exact Hs1 | exact Hs2
    | cbv [Euler_args WCSPH_args SolidMech_args GasDFluid_args RigidBody_args
           app]; covered
    | done | done ] ].

Section Corrector.
Context {F : Type} `{!Number F}.

(** X4. For [WCSPHStep], [SolidMechStep], [GasDFluidStep] and
    [TwoStageRigidBodyStep], with the rates unchanged between the
    calls, [stage2] overrides whatever [stage1] did: the whole
    timestep ([initialize], [stage1], [stage2]) gives, on every store
    and in any arithmetic, the result of [initialize] followed by
    [stage2] alone, and raises exactly when that raises. *)
Theorem stage2_overrides_stage1 step stage2 args (d_idx : nat) (dt : F)
    (s : gmap string (list F)) :
  (step, stage2, args) ∈ corrector_steppers →
  timestep step d_idx dt s = seq (initialize step d_idx) (stage2 d_idx dt) s.
Proof.
  intros Hin. unfold corrector_steppers in Hin.
  repeat (apply elem_of_cons in Hin as [[= -> -> ->]|Hin]);
    [..|by apply elem_of_nil in Hin].
  - same_kernels (timestep (WCSPHStep (F:=F)) d_idx dt)
      (seq (initialize (WCSPHStep (F:=F)) d_idx)
           (WCSPHStep_stage2 d_idx dt)) WCSPH_args d_idx s.
  - same_kernels (timestep (SolidMechStep (F:=F)) d_idx dt)
      (seq (initialize (SolidMechStep (F:=F)) d_idx)
           (SolidMechStep_stage2 d_idx dt)) SolidMech_args d_idx s.
  - same_kernels (timestep (GasDFluidStep (F:=F)) d_idx dt)
      (seq (initialize (GasDFluidStep (F:=F)) d_idx)
           (GasDFluidStep_stage2 d_idx dt)) GasDFluid_args d_idx s.
  - same_kernels (timestep (TwoStageRigidBodyStep (F:=F)) d_idx dt)
      (seq (initialize (TwoStageRigidBodyStep (F:=F)) d_idx)
           (TwoStageRigidBodyStep_stage2 d_idx dt)) RigidBody_args d_idx s.
Qed.

(** X5. With the accelerations unchanged during the step, the
    one-stage and the two-stage rigid-body steppers are
    interchangeable: a timestep of [OneStageRigidBodyStep] and one of
    [TwoStageRigidBodyStep] leave the same store (positions,
    velocities and predictor copies alike) in any arithmetic, and
    raise on the same stores. *)
Theorem rigid_body_steppers_agree (d_idx : nat) (dt : F)
    (s : gmap string (list F)) :
  timestep OneStageRigidBodyStep d_idx dt s
  = timestep TwoStageRigidBodyStep d_idx dt s.
Proof.
  same_kernels (timestep (OneStageRigidBodyStep (F:=F)) d_idx dt)
    (timestep (TwoStageRigidBodyStep (F:=F)) d_idx dt) RigidBody_args d_idx s.
Qed.
End Corrector.

(** * What a whole step computes *)

Section GasDynamics.
Context {F : Type} `{!Number F}.
Local Open Scope num_scope.

(** X6. A timestep of [GasDFluidStep] ([initialize], [stage1],
    [stage2], rates unchanged) leaves each velocity component at
    [u + dt*au], each position coordinate at [x + dt*(u + dt*au)]
    (the position is advanced with the velocity just updated), the
    energy at [e + dt*ae]; the predictor copies hold the values from
    before the step, [h0] holds [h], [converged] is 0 and [omega] is
    1.0; [h] itself is not written.  This holds in any arithmetic. *)
Theorem GasDFluidStep_timestep_formula (s : gmap string (list F))
    (d_idx : nat)
    (dt x0 y0 z0 x y z h u0 v0 w0 u v w e e0 h0 converged omega
     au av aw ae : F) :
  agree s d_idx
    [(d_x0, x0); (d_y0, y0); (d_z0, z0); (d_x, x); (d_y, y); (d_z, z);
     (d_h, h); (d_u0, u0); (d_v0, v0); (d_w0, w0);
     (d_u, u); (d_v, v); (d_w, w); (d_e, e); (d_e0, e0); (d_h0, h0);
     (d_converged, converged); (d_omega, omega);
     (d_au, au); (d_av, av); (d_aw, aw); (d_ae, ae)] →
  ∃ s', timestep GasDFluidStep d_idx dt s = Some s' ∧
    agree s' d_idx
      [(d_u, u + dt * au); (d_v, v + dt * av); (d_w, w + dt * aw);
       (d_x, x + dt * (u + dt * au)); (d_y, y + dt * (v + dt * av));
       (d_z, z + dt * (w + dt * aw));
       (d_e, e + dt * ae);
       (d_x0, x); (d_y0, y); (d_z0, z); (d_u0, u); (d_v0, v); (d_w0, w);
       (d_e0, e); (d_h0, h); (d_h, h);
       (d_converged, f0); (d_omega, f1)] ∧
    s' !! d_h = s !! d_h.
Proof.
  intros Hs.
  run_from (timestep (GasDFluidStep (F:=F)) d_idx dt) s d_idx s' Hrun Hs'.
  exists s'. split_and!; [done|agree_from Hs'|].
  assert (touches d_idx (.∈ GasDFluid_args) (.≠ d_h)
            (timestep (GasDFluidStep (F:=F)) d_idx dt)) as Ht.
  { walk_touches ltac:(first [by (cbv [GasDFluid_args]; not_among) | done
                             | by (cbv [GasDFluid_args]; set_solver)]). }
  apply (touches_frame d_idx _ _ _ _ _ Ht Hrun). by intros Hnot.
Qed.
End GasDynamics.

Module ExactWeights.
Import Exact.
Local Open Scope Qc_scope.
Lemma sixth_Qc : Q2Qc (1 # 6) = 1 / ((1 + 1) * (1 + 1 + 1)).
Proof. by apply Qc_is_canon. Qed.
Lemma two_thirds_Qc : Q2Qc (2 # 3) = (1 + 1) / (1 + 1 + 1).
Proof. by apply Qc_is_canon. Qed.
Lemma quarter_Qc : Q2Qc (1 # 4) = 1 / (1 + 1 + 1 + 1).
Proof. by apply Qc_is_canon. Qed.
Lemma three_quarters_Qc : Q2Qc (3 # 4) = (1 + 1 + 1) / (1 + 1 + 1 + 1).
Proof. by apply Qc_is_canon. Qed.
End ExactWeights.

(** Run a statement built from kernels and evaluations. *)
Ltac run_with_evaluate c s i s' Hrun Hs' :=
  eassert (wp c s (λ s', agree s' i _)) as (s' & Hrun & Hs');
  [ cbv [evaluate foldr fst snd]; unfold_kernels; run_kernel;
    lazymatch goal with Hx : agree _ _ _ |- _ => exact Hx end | ].

Section RigidHalfStep.
Import Exact.
Local Open Scope Qc_scope.

(** X7. For [TwoStageRigidBodyStep], [initialize] followed by
    [stage1] alone leaves the particle where the constant
    acceleration [(ax, ay, az)] takes it in half the step: with
    [h = dt/2], each position coordinate is [x + u*h + (1/2)*ax*h*h]
    and each velocity component [u + ax*h] (exact arithmetic). *)
Theorem TwoStageRigidBodyStep_stage1_half_step (s : gmap string (list Qc))
    (d_idx : nat)
    (dt x y z x0 y0 z0 u v w u0 v0 w0 ax ay az : Qc) :
  agree s d_idx
    [(d_x, x); (d_y, y); (d_z, z); (d_x0, x0); (d_y0, y0); (d_z0, z0);
     (d_u, u); (d_v, v); (d_w, w); (d_u0, u0); (d_v0, v0); (d_w0, w0);
     (d_ax, ax); (d_ay, ay); (d_az, az)] →
  let h := Q2Qc (1 # 2) * dt in
  ∃ s', seq (TwoStageRigidBodyStep_initialize d_idx)
            (TwoStageRigidBodyStep_stage1 d_idx dt) s = Some s' ∧
    agree s' d_idx
      [(d_x, x + u * h + Q2Qc (1 # 2) * ax * h * h);
       (d_y, y + v * h + Q2Qc (1 # 2) * ay * h * h);
       (d_z, z + w * h + Q2Qc (1 # 2) * az * h * h);
       (d_u, u + ax * h); (d_v, v + ay * h); (d_w, w + az * h)].
Proof.
  intros Hs h. subst h.
  run_from (seq (TwoStageRigidBodyStep_initialize (F:=Qc) d_idx)
                (TwoStageRigidBodyStep_stage1 d_idx dt)) s d_idx s' Hrun Hs'.
  exists s'. split; [done|].
  rewrite !ExactMore.half_Qc. agree_exact Hs'.
Qed.

End RigidHalfStep.

Section RungeKutta.
Import Exact.
Local Open Scope Qc_scope.

(** X8. [WCSPHTVDRK3Step] with the rates evaluated anew before
    [stage2] and before [stage3] is the third-order TVD Runge-Kutta
    step: if [a1], [a2], [a3] are the rates of a quantity [q] during
    [stage1], [stage2], [stage3], the step leaves
    [q + dt*(a1/6 + a2/6 + 2*a3/3)] in each of [u], [v], [w], [x],
    [y], [z], [rho] (exact arithmetic, the literals [0.75], [0.25],
    [1./3.], [2./3.] read exactly). *)
Theorem WCSPHTVDRK3Step_weights (s : gmap string (list Qc)) (d_idx : nat)
    (dt x y z u v w rho x0 y0 z0 u0 v0 w0 rho0 : Qc)
    (au av aw ax ay az arho : Qc)
    (au2 av2 aw2 ax2 ay2 az2 arho2 : Qc)
    (au3 av3 aw3 ax3 ay3 az3 arho3 : Qc) :
  agree s d_idx
    [(d_x, x); (d_y, y); (d_z, z); (d_u, u); (d_v, v); (d_w, w);
     (d_rho, rho);
     (d_x0, x0); (d_y0, y0); (d_z0, z0); (d_u0, u0); (d_v0, v0);
     (d_w0, w0); (d_rho0, rho0);
     (d_au, au); (d_av, av); (d_aw, aw); (d_ax, ax); (d_ay, ay);
     (d_az, az); (d_arho, arho)] →
  let rates2 :=
    [(d_au, au2); (d_av, av2); (d_aw, aw2); (d_ax, ax2); (d_ay, ay2);
     (d_az, az2); (d_arho, arho2)] in
  let rates3 :=
    [(d_au, au3); (d_av, av3); (d_aw, aw3); (d_ax, ax3); (d_ay, ay3);
     (d_az, az3); (d_arho, arho3)] in
  let blend a1 a2 a3 :=
    Q2Qc (1 # 6) * a1 + Q2Qc (1 # 6) * a2 + Q2Qc (2 # 3) * a3 in
  ∃ s',
    seq (WCSPHTVDRK3Step_initialize d_idx)
      (seq (WCSPHTVDRK3Step_stage1 d_idx dt)
        (seq (evaluate rates2 d_idx)
          (seq (WCSPHTVDRK3Step_stage2 d_idx dt)
            (seq (evaluate rates3 d_idx)
              (WCSPHTVDRK3Step_stage3 d_idx dt))))) s = Some s' ∧
    agree s' d_idx
      [(d_u, u + dt * blend au au2 au3); (d_v, v + dt * blend av av2 av3);
       (d_w, w + dt * blend aw aw2 aw3);
       (d_x, x + dt * blend ax ax2 ax3); (d_y, y + dt * blend ay ay2 ay3);
       (d_z, z + dt * blend az az2 az3);
       (d_rho, rho + dt * blend arho arho2 arho3)].
Proof.
  intros Hs rates2 rates3 blend. subst rates2 rates3 blend.
  run_with_evaluate
    (seq (WCSPHTVDRK3Step_initialize (F:=Qc) d_idx)
      (seq (WCSPHTVDRK3Step_stage1 d_idx dt)
        (seq (evaluate
                [(d_au, au2); (d_av, av2); (d_aw, aw2); (d_ax, ax2);
                 (d_ay, ay2); (d_az, az2); (d_arho, arho2)] d_idx)
          (seq (WCSPHTVDRK3Step_stage2 d_idx dt)
            (seq (evaluate
                    [(d_au, au3); (d_av, av3); (d_aw, aw3); (d_ax, ax3);
                     (d_ay, ay3); (d_az, az3); (d_arho, arho3)] d_idx)
              (WCSPHTVDRK3Step_stage3 d_idx dt))))))
    s d_idx s' Hrun Hs'.
  exists s'. split; [done|].
  rewrite !ExactWeights.sixth_Qc, !ExactWeights.two_thirds_Qc.
  agree_exact Hs'.
Qed.
End RungeKutta.

Section Trapezoid.
Import Exact.
Local Open Scope Qc_scope.

(** X9. [TransportVelocityStep] and [AdamiVerletStep] advance the
    velocity by the trapezoidal rule: with the acceleration [a1]
    during [stage1] and, evaluated anew, [a2] during [stage2], the
    two stages leave [u + (dt/2)*(a1 + a2)], and [vmag2] holds the
    square of the magnitude of that new velocity.  For
    [AdamiVerletStep] each position coordinate is advanced by
    [dt/2] times the sum of the two velocities, the one after
    [stage1] and the final one, and the density by [dt] times the
    rate evaluated before [stage2] (exact arithmetic). *)
Theorem velocity_update_is_trapezoidal (s : gmap string (list Qc))
    (d_idx : nat)
    (dt u v au av uhat auhat vhat avhat x y rho arho vmag2 : Qc)
    (au2 av2 arho2 : Qc) :
  let half := Q2Qc (1 # 2) in
  let u' := u + half * dt * (au + au2) in
  let v' := v + half * dt * (av + av2) in
  (agree s d_idx
     [(d_u, u); (d_v, v); (d_au, au); (d_av, av);
      (d_uhat, uhat); (d_auhat, auhat); (d_vhat, vhat); (d_avhat, avhat);
      (d_x, x); (d_y, y); (d_vmag2, vmag2)] →
   ∃ s',
     seq (TransportVelocityStep_stage1 d_idx dt)
       (seq (evaluate [(d_au, au2); (d_av, av2)] d_idx)
         (TransportVelocityStep_stage2 d_idx dt)) s = Some s' ∧
     agree s' d_idx
       [(d_u, u'); (d_v, v'); (d_vmag2, u' * u' + v' * v')]) ∧
  (agree s d_idx
     [(d_u, u); (d_v, v); (d_au, au); (d_av, av);
      (d_x, x); (d_y, y); (d_rho, rho); (d_arho, arho);
      (d_vmag2, vmag2)] →
   ∃ s',
     seq (AdamiVerletStep_stage1 d_idx dt)
       (seq (evaluate [(d_au, au2); (d_av, av2); (d_arho, arho2)] d_idx)
         (AdamiVerletStep_stage2 d_idx dt)) s = Some s' ∧
     agree s' d_idx
       [(d_u, u'); (d_v, v'); (d_vmag2, u' * u' + v' * v');
        (d_x, x + half * dt * ((u + half * dt * au) + u'));
        (d_y, y + half * dt * ((v + half * dt * av) + v'));
        (d_rho, rho + dt * arho2)]).
Proof.
  intros half u' v'. subst half u' v'. split; intros Hs.
  - run_with_evaluate
      (seq (TransportVelocityStep_stage1 (F:=Qc) d_idx dt)
        (seq (evaluate [(d_au, au2); (d_av, av2)] d_idx)
          (TransportVelocityStep_stage2 d_idx dt))) s d_idx s' Hrun Hs'.
    exists s'. split; [done|].
    rewrite !ExactMore.half_Qc. agree_exact Hs'.
  - run_with_evaluate
      (seq (AdamiVerletStep_stage1 (F:=Qc) d_idx dt)
        (seq (evaluate [(d_au, au2); (d_av, av2); (d_arho, arho2)] d_idx)
          (AdamiVerletStep_stage2 d_idx dt))) s d_idx s' Hrun Hs'.
    exists s'. split; [done|].
    rewrite !ExactMore.half_Qc. agree_exact Hs'.
Qed.

(** X10. With the acceleration held constant over the step, a
    timestep of [AdamiVerletStep] leaves the velocity at [u + dt*au],
    as the motion under constant acceleration has it, but the
    position at [x + u*dt + (3/4)*au*dt*dt], not at
    [x + u*dt + (1/2)*au*dt*dt]: [stage2] advances the position with
    the end-of-step velocity.  The density is left at
    [rho + dt*arho] (exact arithmetic). *)
Theorem AdamiVerletStep_constant_acceleration (s : gmap string (list Qc))
    (d_idx : nat) (dt u v au av x y rho arho vmag2 : Qc) :
  agree s d_idx
    [(d_u, u); (d_v, v); (d_au, au); (d_av, av);
     (d_x, x); (d_y, y); (d_rho, rho); (d_arho, arho);
     (d_vmag2, vmag2)] →
  ∃ s', timestep AdamiVerletStep d_idx dt s = Some s' ∧
    agree s' d_idx
      [(d_u, u + au * dt); (d_v, v + av * dt);
       (d_x, x + u * dt + Q2Qc (3 # 4) * au * dt * dt);
       (d_y, y + v * dt + Q2Qc (3 # 4) * av * dt * dt);
       (d_rho, rho + dt * arho)].
Proof.
  intros Hs.
  run_from (timestep (AdamiVerletStep (F:=Qc)) d_idx dt) s d_idx s' Hrun Hs'.
  exists s'. split; [done|].
  rewrite !ExactWeights.three_quarters_Qc. agree_exact Hs'.
Qed.
End Trapezoid.

Import Exact Binary64.

Lemma timestep_returns_iff_bound_witness :
  let s := one_particle Sample.euler in
  let dt := b64 1 (-3) in
  (EulerStep (F:=float), Euler_args) ∈ steppers ∧
  is_Some (timestep EulerStep 0 dt s) ∧
  timestep EulerStep 0 dt (delete d_rho s) = None ∧
  timestep EulerStep 1 dt s = None.
Proof.
  intros s dt.
  assert ((EulerStep (F:=float), Euler_args) ∈ steppers) as Hin
    by (unfold steppers; repeat constructor).
  assert (agree s 0 Sample.euler) as Hs by repeat constructor.
  split_and!; [exact Hin|..].
  - apply (proj2 (timestep_returns_iff_bound EulerStep Euler_args 0 dt s Hin)).
    unfold Euler_args. bound_concrete.
    all: eexists; split; [reflexivity|simpl; lia].
  - destruct (timestep EulerStep 0 dt (delete d_rho s)) as [s'|] eqn:Hrun;
      [|reflexivity].
    destruct (proj1 (timestep_returns_iff_bound EulerStep Euler_args 0 dt
                       (delete d_rho s) Hin) ltac:(by eexists) d_rho)
      as (a & Ha & _).
    + unfold Euler_args. repeat constructor.
    + by rewrite lookup_delete_eq in Ha.
  - destruct (timestep EulerStep 1 dt s) as [s'|] eqn:Hrun; [|reflexivity].
    destruct (proj1 (timestep_returns_iff_bound EulerStep Euler_args 1 dt
                       s Hin) ltac:(by eexists) d_rho)
      as (a & Ha & Hlen).
    + unfold Euler_args. repeat constructor.
    + assert (s !! d_rho = Some [b64 1000 0]) as Hrho by reflexivity.
      rewrite Hrho in Ha. injection Ha as <-. simpl in Hlen. lia.
Defined.

Lemma kernels_keep_accelerations_witness :
  let s := one_particle Sample.euler in
  let dt := b64 1 (-3) in
  (EulerStep (F:=float), Euler_args) ∈ steppers ∧
  EulerStep_stage1 ∈ kernels EulerStep ∧
  d_au ∈ acceleration_props ∧
  ∃ s', EulerStep_stage1 0 dt s = Some s' ∧
    s' !! d_au = s !! d_au ∧ load d_u 0 s' = Some (b64 17 (-4)).
Proof.
  intros s dt.
  assert ((EulerStep (F:=float), Euler_args) ∈ steppers) as Hin
    by (unfold steppers; repeat constructor).
  assert (EulerStep_stage1 (F:=float) ∈ kernels EulerStep) as Hk
    by (unfold kernels; simpl; repeat constructor).
  assert (d_au ∈ acceleration_props) as Ha
    by (unfold acceleration_props; repeat constructor).
  assert (agree s 0 Sample.euler) as Hs by repeat constructor.
  split_and!; [exact Hin|exact Hk|exact Ha|].
  unfold Sample.euler in Hs. clearbody s.
  run_from (EulerStep_stage1 (F:=float) 0 dt) s 0 s' Hrun Hs'.
  exists s'. split_and!; [exact Hrun| |].
  - exact (kernels_keep_accelerations EulerStep Euler_args EulerStep_stage1
             0 dt s s' d_au Hin Hk Hrun Ha).
  - by rewrite (agree_get _ _ _ d_u _ Hs' eq_refl).
Defined.

Lemma predictor_kernels_idempotent_witness :
  let s := one_particle Sample.wcsph in
  let dt := b64 1 (-3) in
  (WCSPHStep_stage1 (F:=float), WCSPH_args) ∈ predictor_kernels ∧
  seq (WCSPHStep_stage1 0 dt) (WCSPHStep_stage1 0 dt) s
  = WCSPHStep_stage1 0 dt s.
Proof.
  intros s dt.
  assert ((WCSPHStep_stage1 (F:=float), WCSPH_args) ∈ predictor_kernels)
    as Hin by (unfold predictor_kernels; repeat constructor).
  split; [exact Hin|].
  exact (predictor_kernels_idempotent WCSPHStep_stage1 WCSPH_args 0 dt s Hin).
Defined.

Lemma stage2_overrides_stage1_witness :
  let s := one_particle Sample.gasd in
  let dt := b64 1 (-3) in
  (GasDFluidStep (F:=float), GasDFluidStep_stage2, GasDFluid_args)
    ∈ corrector_steppers ∧
  timestep GasDFluidStep 0 dt s
  = seq (initialize GasDFluidStep 0) (GasDFluidStep_stage2 0 dt) s.
Proof.
  intros s dt.
  assert ((GasDFluidStep (F:=float), GasDFluidStep_stage2, GasDFluid_args)
            ∈ corrector_steppers) as Hin
    by (unfold corrector_steppers; repeat constructor).
  split; [exact Hin|].
  exact (stage2_overrides_stage1 GasDFluidStep GasDFluidStep_stage2
           GasDFluid_args 0 dt s Hin).
Defined.

Lemma GasDFluidStep_timestep_formula_witness :
  let s := one_particle Sample.gasd in
  let dt := b64 1 (-3) in
  agree s 0 Sample.gasd ∧
  ∃ s', timestep GasDFluidStep 0 dt s = Some s' ∧
    load d_x 0 s' = Some (b64 9 (-3)) ∧ load d_u 0 s' = Some (b64 1 0) ∧
    load d_x0 0 s' = Some (b64 1 0) ∧ load d_h0 0 s' = Some (b64 1 0) ∧
    load d_converged 0 s' = Some (b64 0 0) ∧
    load d_omega 0 s' = Some (b64 1 0).
Proof.
  intros s dt. assert (agree s 0 Sample.gasd) as Hs by repeat constructor.
  split; [exact Hs|].
  destruct (GasDFluidStep_timestep_formula s 0 dt
              _ _ _ _ _ _ _ _ _ _ _ _ _ _ _ _ _ _ _ _ _ _ Hs)
    as (s' & Hrun & Hs' & _).
  exists s'. split_and!; [exact Hrun|..].
  - by rewrite (agree_get _ _ _ d_x _ Hs' eq_refl).
  - by rewrite (agree_get _ _ _ d_u _ Hs' eq_refl).
  - by rewrite (agree_get _ _ _ d_x0 _ Hs' eq_refl).
  - by rewrite (agree_get _ _ _ d_h0 _ Hs' eq_refl).
  - by rewrite (agree_get _ _ _ d_converged _ Hs' eq_refl).
  - by rewrite (agree_get _ _ _ d_omega _ Hs' eq_refl).
Defined.

Lemma TwoStageRigidBodyStep_stage1_half_step_witness :
  let s := one_particle Sample.rigid in
  let dt := Q2Qc (1 # 10) in
  agree s 0 Sample.rigid ∧
  ∃ s', seq (TwoStageRigidBodyStep_initialize 0)
            (TwoStageRigidBodyStep_stage1 0 dt) s = Some s' ∧
    load d_z 0 s' = Some (Q2Qc (263 # 80)) ∧
    load d_w 0 s' = Some (Q2Qc (11 # 2)).
Proof.
  intros s dt. assert (agree s 0 Sample.rigid) as Hs by repeat constructor.
  split; [exact Hs|].
  destruct (TwoStageRigidBodyStep_stage1_half_step s 0 dt
              _ _ _ _ _ _ _ _ _ _ _ _ _ _ _ Hs) as (s' & Hrun & Hs').
  exists s'. split_and!; [exact Hrun|..].
  - rewrite (agree_get _ _ _ d_z _ Hs' eq_refl). f_equal; by apply Qc_is_canon.
  - rewrite (agree_get _ _ _ d_w _ Hs' eq_refl). f_equal; by apply Qc_is_canon.
Defined.

Lemma WCSPHTVDRK3Step_weights_witness :
  let s := one_particle Sample.tvdrk3 in
  let dt := Q2Qc (1 # 10) in
  let rates2 :=
    [(d_au, Q2Qc 11); (d_av, Q2Qc 0); (d_aw, Q2Qc 0); (d_ax, Q2Qc 2);
     (d_ay, Q2Qc 0); (d_az, Q2Qc 0); (d_arho, Q2Qc 9)] in
  let rates3 :=
    [(d_au, Q2Qc 2); (d_av, Q2Qc 0); (d_aw, Q2Qc 0); (d_ax, Q2Qc 8);
     (d_ay, Q2Qc 0); (d_az, Q2Qc 0); (d_arho, Q2Qc 9)] in
  agree s 0 Sample.tvdrk3 ∧
  ∃ s',
    seq (WCSPHTVDRK3Step_initialize 0)
      (seq (WCSPHTVDRK3Step_stage1 0 dt)
        (seq (evaluate rates2 0)
          (seq (WCSPHTVDRK3Step_stage2 0 dt)
            (seq (evaluate rates3 0)
              (WCSPHTVDRK3Step_stage3 0 dt))))) s = Some s' ∧
    load d_u 0 s' = Some (Q2Qc (11 # 15)) ∧
    load d_x 0 s' = Some (Q2Qc (76 # 10)) ∧
    load d_rho 0 s' = Some (Q2Qc (10009 # 10)).
Proof.
  intros s dt rates2 rates3.
  assert (agree s 0 Sample.tvdrk3) as Hs by repeat constructor.
  split; [exact Hs|].
  destruct (WCSPHTVDRK3Step_weights s 0 dt
              _ _ _ _ _ _ _ _ _ _ _ _ _ _ _ _ _ _ _ _ _
              (Q2Qc 11) (Q2Qc 0) (Q2Qc 0) (Q2Qc 2) (Q2Qc 0) (Q2Qc 0) (Q2Qc 9)
              (Q2Qc 2) (Q2Qc 0) (Q2Qc 0) (Q2Qc 8) (Q2Qc 0) (Q2Qc 0) (Q2Qc 9)
              Hs) as (s' & Hrun & Hs').
  exists s'. split_and!; [exact Hrun|..].
  - rewrite (agree_get _ _ _ d_u _ Hs' eq_refl). f_equal; by apply Qc_is_canon.
  - rewrite (agree_get _ _ _ d_x _ Hs' eq_refl). f_equal; by apply Qc_is_canon.
  - rewrite (agree_get _ _ _ d_rho _ Hs' eq_refl). f_equal; by apply Qc_is_canon.
Defined.

Lemma velocity_update_is_trapezoidal_witness :
  let s := one_particle Sample.adami in
  let dt := Q2Qc (1 # 2) in
  agree s 0
    [(d_u, Q2Qc 1); (d_v, Q2Qc 2); (d_au, Q2Qc 4); (d_av, Q2Qc 8);
     (d_x, Q2Qc 0); (d_y, Q2Qc 10); (d_rho, Q2Qc 1000); (d_arho, Q2Qc 20);
     (d_vmag2, Q2Qc 0)] ∧
  ∃ s',
    seq (AdamiVerletStep_stage1 0 dt)
      (seq (evaluate [(d_au, Q2Qc 8); (d_av, Q2Qc 0); (d_arho, Q2Qc 6)] 0)
        (AdamiVerletStep_stage2 0 dt)) s = Some s' ∧
    load d_u 0 s' = Some (Q2Qc 4) ∧ load d_v 0 s' = Some (Q2Qc 4) ∧
    load d_vmag2 0 s' = Some (Q2Qc 32) ∧
    load d_x 0 s' = Some (Q2Qc (3 # 2)) ∧
    load d_rho 0 s' = Some (Q2Qc 1003).
Proof.
  intros s dt.
  assert (agree s 0
    [(d_u, Q2Qc 1); (d_v, Q2Qc 2); (d_au, Q2Qc 4); (d_av, Q2Qc 8);
     (d_x, Q2Qc 0); (d_y, Q2Qc 10); (d_rho, Q2Qc 1000); (d_arho, Q2Qc 20);
     (d_vmag2, Q2Qc 0)]) as Hs by repeat constructor.
  split; [exact Hs|].
  destruct (proj2 (velocity_update_is_trapezoidal s 0 dt
              _ _ _ _ (Q2Qc 0) (Q2Qc 2) (Q2Qc 0) (Q2Qc 6) _ _ _ _ _
              (Q2Qc 8) (Q2Qc 0) (Q2Qc 6)) Hs) as (s' & Hrun & Hs').
  exists s'. split_and!; [exact Hrun|..].
  - rewrite (agree_get _ _ _ d_u _ Hs' eq_refl). f_equal; by apply Qc_is_canon.
  - rewrite (agree_get _ _ _ d_v _ Hs' eq_refl). f_equal; by apply Qc_is_canon.
  - rewrite (agree_get _ _ _ d_vmag2 _ Hs' eq_refl). f_equal; by apply Qc_is_canon.
  - rewrite (agree_get _ _ _ d_x _ Hs' eq_refl). f_equal; by apply Qc_is_canon.
  - rewrite (agree_get _ _ _ d_rho _ Hs' eq_refl). f_equal; by apply Qc_is_canon.
Defined.

Lemma AdamiVerletStep_constant_acceleration_witness :
  let s := one_particle Sample.adami in
  let dt := Q2Qc (1 # 2) in
  agree s 0
    [(d_u, Q2Qc 1); (d_v, Q2Qc 2); (d_au, Q2Qc 4); (d_av, Q2Qc 8);
     (d_x, Q2Qc 0); (d_y, Q2Qc 10); (d_rho, Q2Qc 1000); (d_arho, Q2Qc 20);
     (d_vmag2, Q2Qc 0)] ∧
  ∃ s', timestep AdamiVerletStep 0 dt s = Some s' ∧
    load d_u 0 s' = Some (Q2Qc 3) ∧
    load d_x 0 s' = Some (Q2Qc (5 # 4)) ∧
    load d_rho 0 s' = Some (Q2Qc 1010).
Proof.
  intros s dt.
  assert (agree s 0
    [(d_u, Q2Qc 1); (d_v, Q2Qc 2); (d_au, Q2Qc 4); (d_av, Q2Qc 8);
     (d_x, Q2Qc 0); (d_y, Q2Qc 10); (d_rho, Q2Qc 1000); (d_arho, Q2Qc 20);
     (d_vmag2, Q2Qc 0)]) as Hs by repeat constructor.
  split; [exact Hs|].
  destruct (AdamiVerletStep_constant_acceleration s 0 dt
              _ _ _ _ _ _ _ _ _ Hs) as (s' & Hrun & Hs').
  exists s'. split_and!; [exact Hrun|..].
  - rewrite (agree_get _ _ _ d_u _ Hs' eq_refl). f_equal; by apply Qc_is_canon.
  - rewrite (agree_get _ _ _ d_x _ Hs' eq_refl). f_equal; by apply Qc_is_canon.
  - rewrite (agree_get _ _ _ d_rho _ Hs' eq_refl). f_equal; by apply Qc_is_canon.
Defined.

